(** * PDF entity/relation extractor (app_2.py): model and properties

    The development follows the three functions of [app_2.py] that carry
    logic: the chunking list comprehension at the head of
    [extract_entities_relations], the per-chunk loop of the same function,
    and [convert_to_csv], together with the size guard of the upload
    handler.

    A Python [str] is a sequence of Unicode code points; it is modelled as
    a list of integers.  Python integers are unbounded and are modelled
    in [Z]. *)

From Stdlib Require Import Decimal String Ascii ZArith Bool List Lia.
Import ListNotations.
Local Open Scope Z_scope.

Set Implicit Arguments.

(** ** Python strings *)

Module Str.

Definition char := Z.
Definition str := list char.

(** A code point that a Python [str] can hold. *)
Definition is_code_point (c : char) : bool := (0 <=? c) && (c <=? 0x10FFFF).

(** UTF-16 surrogate range: code points that are not Unicode scalar values. *)
Definition is_surrogate (c : char) : bool := (0xD800 <=? c) && (c <=? 0xDFFF).

Definition well_formed (s : str) : bool := forallb is_code_point s.

(** [len(s)] *)
Definition len (A : Type) (s : list A) : Z := Z.of_nat (List.length s).

(** An ASCII literal of the source, as a [str]. *)
Fixpoint lit (s : string) : str :=
  match s with
  | EmptyString => []
  | String a r => Z.of_N (N_of_ascii a) :: lit r
  end.

Definition LF : char := 10.
Definition CR : char := 13.
Definition COMMA : char := 44.
Definition DQUOTE : char := 34.

(** [str.isspace] on one code point: the code points of bidirectional
    class WS, B or S, or of general category Zs. *)
Definition isspace (c : char) : bool :=
  ((0x09 <=? c) && (c <=? 0x0D))
  || ((0x1C <=? c) && (c <=? 0x20))
  || (c =? 0x85) || (c =? 0xA0) || (c =? 0x1680)
  || ((0x2000 <=? c) && (c <=? 0x200A))
  || (c =? 0x2028) || (c =? 0x2029) || (c =? 0x202F)
  || (c =? 0x205F) || (c =? 0x3000).

Fixpoint dropwhile (A : Type) (p : A -> bool) (s : list A) : list A :=
  match s with
  | [] => []
  | c :: r => if p c then dropwhile p r else s
  end.

(** [s.lstrip()], [s.rstrip()], [s.strip()] *)
Definition lstrip (s : str) : str := dropwhile isspace s.
Definition rstrip (s : str) : str := rev (dropwhile isspace (rev s)).
Definition strip (s : str) : str := rstrip (lstrip s).

(** [s.split(sep)] for a one-character separator: every occurrence of the
    separator cuts, empty pieces are kept, the result is never empty. *)
Fixpoint split (sep : char) (s : str) : list str :=
  match s with
  | [] => [[]]
  | c :: r =>
      if c =? sep then [] :: split sep r
      else match split sep r with
           | [] => [[c]]
           | w :: ws => (c :: w) :: ws
           end
  end.

(** [sep.join(xs)] *)
Fixpoint join (sep : str) (xs : list str) : str :=
  match xs with
  | [] => []
  | [x] => x
  | x :: r => x ++ sep ++ join sep r
  end.

(** Index adjustment of a slice bound (PySlice_AdjustIndices, step 1). *)
Definition adjust (n i : Z) : Z :=
  if i <? 0 then Z.max 0 (i + n) else Z.min i n.

(** [s[lo:hi]] *)
Definition slice (A : Type) (s : list A) (lo hi : Z) : list A :=
  let n := len s in
  let a := adjust n lo in
  let b := adjust n hi in
  firstn (Z.to_nat (b - a)) (skipn (Z.to_nat a) s).

(** [range(start, stop, step)] for a positive step, as the loop it stands
    for: [i] runs from [start] in steps of [step] while [i < stop].  The
    fuel [stop - start] bounds the number of iterations. *)
Fixpoint range_loop (fuel : nat) (i stop step : Z) : list Z :=
  match fuel with
  | O => []
  | S f => if i <? stop then i :: range_loop f (i + step) stop step else []
  end.

Definition range (start stop step : Z) : list Z :=
  range_loop (Z.to_nat (stop - start)) start stop step.

(** Decimal rendering of a non-negative integer, as [str(i)] gives it. *)
Fixpoint digits (u : Decimal.uint) : str :=
  match u with
  | Nil => []
  | D0 r => 48 :: digits r
  | D1 r => 49 :: digits r
  | D2 r => 50 :: digits r
  | D3 r => 51 :: digits r
  | D4 r => 52 :: digits r
  | D5 r => 53 :: digits r
  | D6 r => 54 :: digits r
  | D7 r => 55 :: digits r
  | D8 r => 56 :: digits r
  | D9 r => 57 :: digits r
  end.

Definition str_of_Z (i : Z) : str :=
  match Z.to_int i with
  | Decimal.Pos u => digits u
  | Decimal.Neg u => 45 :: digits u
  end.

End Str.

Import Str.

(** ** Configuration *)

Definition CHUNK_SIZE : Z := 20000.
Definition MAX_TEXT : Z := 1000000.

(** ** Chunker

    [chunks = [text[i:i + CHUNK_SIZE] for i in range(0, len(text), CHUNK_SIZE)]] *)

Definition chunks_of (A : Type) (c : Z) (text : list A) : list (list A) :=
  map (fun i => slice text i (i + c)) (range 0 (len text) c).

Definition chunks (text : str) : list str := chunks_of CHUNK_SIZE text.

(** ** Size guard of the upload handler

    [if len(pdf_text) > 1_000_000: ...; pdf_text = pdf_text[:1_000_000]] *)

Definition cap_text (pdf_text : str) : str :=
  if len pdf_text >? MAX_TEXT then slice pdf_text 0 MAX_TEXT else pdf_text.

(** ** UTF-8 codec

    [s.encode("utf-8")] with the default (strict) error handler: surrogate
    code points are refused with UnicodeEncodeError.  Bytes are integers
    in [0, 255]. *)

Module Utf8.

Definition encode_char (c : char) : option (list Z) :=
  if c <? 0x80 then Some [c]
  else if c <? 0x800 then
    Some [Z.lor 0xC0 (Z.shiftr c 6); Z.lor 0x80 (Z.land c 0x3F)]
  else if c <? 0x10000 then
    if is_surrogate c then None
    else Some [Z.lor 0xE0 (Z.shiftr c 12);
               Z.lor 0x80 (Z.land (Z.shiftr c 6) 0x3F);
               Z.lor 0x80 (Z.land c 0x3F)]
  else
    Some [Z.lor 0xF0 (Z.shiftr c 18);
          Z.lor 0x80 (Z.land (Z.shiftr c 12) 0x3F);
          Z.lor 0x80 (Z.land (Z.shiftr c 6) 0x3F);
          Z.lor 0x80 (Z.land c 0x3F)].

(** The encoder walks the string from position [pos]; the result is the
    bytes, or the position of the first code point it refuses. *)
Fixpoint encode_from (pos : Z) (s : str) : Z + list Z :=
  match s with
  | [] => inr []
  | c :: r =>
      match encode_char c with
      | None => inl pos
      | Some bs =>
          match encode_from (pos + 1) r with
          | inl p => inl p
          | inr rest => inr (bs ++ rest)
          end
      end
  end.

Definition encode (s : str) : Z + list Z := encode_from 0 s.

Definition is_byte (b : Z) : bool := (0 <=? b) && (b <=? 0xFF).
Definition is_cont (b : Z) : bool := (0x80 <=? b) && (b <=? 0xBF).
Definition payload (b : Z) : Z := Z.land b 0x3F.

(** A strict UTF-8 decoder: shortest form only, no surrogates, nothing
    above U+10FFFF.  It states what a valid UTF-8 byte sequence is. *)
Fixpoint decode (bs : list Z) : option str :=
  match bs with
  | [] => Some []
  | b0 :: r0 =>
      if (0 <=? b0) && (b0 <? 0x80) then option_map (cons b0) (decode r0)
      else if (0xC2 <=? b0) && (b0 <=? 0xDF) then
        match r0 with
        | b1 :: r1 =>
            if is_cont b1
            then option_map (cons (Z.lor (Z.shiftl (Z.land b0 0x1F) 6) (payload b1)))
                            (decode r1)
            else None
        | _ => None
        end
      else if (0xE0 <=? b0) && (b0 <=? 0xEF) then
        match r0 with
        | b1 :: b2 :: r2 =>
            let c := Z.lor (Z.shiftl (Z.land b0 0x0F) 12)
                           (Z.lor (Z.shiftl (payload b1) 6) (payload b2)) in
            if is_cont b1 && is_cont b2 && (0x800 <=? c) && negb (is_surrogate c)
            then option_map (cons c) (decode r2)
            else None
        | _ => None
        end
      else if (0xF0 <=? b0) && (b0 <=? 0xF4) then
        match r0 with
        | b1 :: b2 :: b3 :: r3 =>
            let c := Z.lor (Z.shiftl (Z.land b0 0x07) 18)
                           (Z.lor (Z.shiftl (payload b1) 12)
                                  (Z.lor (Z.shiftl (payload b2) 6) (payload b3))) in
            if is_cont b1 && is_cont b2 && is_cont b3
               && (0x10000 <=? c) && (c <=? 0x10FFFF)
            then option_map (cons c) (decode r3)
            else None
        | _ => None
        end
      else None
  end.

End Utf8.

(** ** csv.writer, excel dialect

    [csv.writer(output)] uses the default dialect: delimiter comma,
    quotechar double quote, doublequote on, no escapechar, lineterminator CR LF,
    QUOTE_MINIMAL.  The record under construction is the pair of the text
    joined so far and the number of fields joined. *)

Module Csv.

Definition delimiter : char := COMMA.
Definition quotechar : char := DQUOTE.
Definition lineterminator : str := [CR; LF].

Record record_state := { rec : str; num_fields : Z }.

(** A character that forces the field to be quoted. *)
Definition special (c : char) : bool :=
  (c =? delimiter) || (c =? quotechar) || existsb (Z.eqb c) lineterminator.

(** The field data as copied into the record: a quotechar is doubled. *)
Fixpoint field_data (field : str) : str :=
  match field with
  | [] => []
  | c :: r => if c =? quotechar then quotechar :: c :: field_data r
              else c :: field_data r
  end.

(** [join_append]: separator when a field precedes, then the field,
    between quotes when asked for or when it holds a special character. *)
Definition join_append (st : record_state) (field : str) (quoted : bool)
  : record_state :=
  let quoted := quoted || existsb special field in
  let sep := if 0 <? num_fields st then [delimiter] else [] in
  let q := if quoted then [quotechar] else [] in
  {| rec := rec st ++ sep ++ q ++ field_data field ++ q;
     num_fields := num_fields st + 1 |}.

(** The fields of a row joined in the record buffer.  A record made of
    one empty field is written as an empty quoted field. *)
Definition join_row (row : list str) : str :=
  let st := fold_left (fun st field => join_append st field false) row
                      {| rec := []; num_fields := 0 |} in
  let st := if (0 <? num_fields st) && (len (rec st) =? 0)
            then join_append {| rec := rec st; num_fields := num_fields st - 1 |}
                             [] true
            else st in
  rec st.

(** [writer.writerow(row)]: the text handed to [output.write]. *)
Definition writerow (row : list str) : str := join_row row ++ lineterminator.

End Csv.

(** ** convert_to_csv *)

(** [lines = data_str.strip().split("\n")] *)
Definition csv_lines (data_str : str) : list str := split LF (strip data_str).

(** [row = [col.strip() for col in line.split(",")]] *)
Definition csv_row (line : str) : list str := map strip (split COMMA line).

(** The contents of [output] after the loop over [lines]. *)
Definition csv_output (data_str : str) : str :=
  fold_left (fun output line => output ++ Csv.writerow (csv_row line))
            (csv_lines data_str) [].

(** ** Effects: exceptions and the calls that leave the program *)

(** The exceptions met here are all subclasses of [Exception], which is
    what the [except] clause of the loop catches. *)
Inductive exn_class :=
| ServiceError          (* raised by the Mistral client *)
| IndexError
| AttributeError
| ZeroDivisionError
| StreamlitAPIException
| UnicodeEncodeError (position : Z).

(** An exception object; [exn_msg] is what [str(e)] gives. *)
Record exn := { exn_type : exn_class; exn_msg : str }.

(** A number handed to Streamlit: an [int], or the [float] that a true
    division produced, kept as the exact fraction it rounds.  The range
    test on the fraction agrees with the test on the float, since rounding
    is monotone and the bounds 0 and 1 are floats. *)
Inductive number :=
| Int (z : Z)
| Float (num den : Z).

(** What the program does to the outside, in the order it does it. *)
Inductive event :=
| StProgress (value : number) (text : str)       (* st.progress(...) *)
| ProgressUpdate (value : number) (text : str)   (* progress.progress(...) *)
| ChatComplete (model prompt : str)              (* client.chat.complete(...) *)
| StError (text : str)
| StWarning (text : str)
| StSuccess (text : str)
| StTextArea (label value : str)
| StDownloadButton (data : list Z)
| StSpinner (text : str)                         (* entering [with st.spinner(...)] *)
| StSpinnerDone.                                 (* leaving it *)

Definition trace := list event.

(** What one chat completion call gives back: the exception it raised,
    or a response whose choices each carry a message content, possibly
    [None]. *)
Record chat_message := { content : option str }.
Record chat_response := { choices : list chat_message }.

(** The extraction service, seen from the program: its answer to call
    number [k] (from 0) for a model name and a prompt.  Nothing is assumed
    of it. *)
Definition service := nat -> str -> str -> exn + chat_response.

(** Computations: they read and extend the trace, and return or raise. *)
Definition M (A : Type) : Type := trace -> (exn + A) * trace.

Definition ret (A : Type) (a : A) : M A := fun t => (inr a, t).
Definition raise (A : Type) (e : exn) : M A := fun t => (inl e, t).
Definition bind (A B : Type) (m : M A) (k : A -> M B) : M B :=
  fun t => match m t with
           | (inl e, t') => (inl e, t')
           | (inr a, t') => k a t'
           end.
(** [try: body / except Exception as e: handler e] *)
Definition try_except (A : Type) (body : M A) (handler : exn -> M A) : M A :=
  fun t => match body t with
           | (inl e, t') => handler e t'
           | (inr a, t') => (inr a, t')
           end.
Definition emit (ev : event) : M unit := fun t => (inr tt, t ++ [ev]).

Declare Scope py_scope.
Delimit Scope py_scope with py.
Notation "x <- m ;; k" := (bind m (fun x => k))
  (at level 100, m at next level, right associativity) : py_scope.
Notation "m ;; k" := (bind m (fun _ => k))
  (at level 100, right associativity) : py_scope.
Local Open Scope py_scope.

Definition MODEL_NAME : str := lit "mistral-small-2501".

(** [a / b] on integers *)
Definition truediv (a b : Z) : M number :=
  if b =? 0
  then raise _ {| exn_type := ZeroDivisionError; exn_msg := lit "division by zero" |}
  else ret (Float a b).

(** Streamlit accepts an [int] in [0, 100] or a [float] in [0.0, 1.0]. *)
Definition progress_value_ok (v : number) : bool :=
  match v with
  | Int z => (0 <=? z) && (z <=? 100)
  | Float n d =>
      if 0 <? d then (0 <=? n) && (n <=? d)
      else if d <? 0 then (d <=? n) && (n <=? 0)
      else false
  end.

Definition bad_progress_value : exn :=
  {| exn_type := StreamlitAPIException;
     exn_msg := lit "Progress Value has invalid value" |}.

Definition st_progress (v : number) (text : str) : M unit :=
  if progress_value_ok v then emit (StProgress v text)
  else raise _ bad_progress_value.

Definition progress_progress (v : number) (text : str) : M unit :=
  if progress_value_ok v then emit (ProgressUpdate v text)
  else raise _ bad_progress_value.

(** Number of chat completion calls made so far. *)
Definition calls (t : trace) : nat :=
  List.length (filter (fun ev => match ev with ChatComplete _ _ => true | _ => false end) t).

Definition index_error : exn :=
  {| exn_type := IndexError; exn_msg := lit "list index out of range" |}.

Definition none_has_no_strip : exn :=
  {| exn_type := AttributeError;
     exn_msg := lit "'NoneType' object has no attribute 'strip'" |}.

(** [xs[0]] *)
Definition first_item (A : Type) (xs : list A) : M A :=
  match xs with
  | x :: _ => ret x
  | [] => raise _ index_error
  end.

(** [c.strip()] on a content that may be [None] *)
Definition content_strip (c : option str) : M str :=
  match c with
  | Some s => ret (strip s)
  | None => raise _ none_has_no_strip
  end.

(** [enumerate(xs, start)] *)
Fixpoint enumerate (A : Type) (start : Z) (xs : list A) : list (Z * A) :=
  match xs with
  | [] => []
  | x :: r => (start, x) :: enumerate (start + 1) r
  end.

(** The instruction sent with one chunk. *)
Definition prompt_for (i total_chunks : Z) (chunk : str) : str :=
  [LF] ++
  lit "        You are an information extraction assistant." ++ [LF] ++
  lit "        From the following text, extract: " ++ [LF] ++
  lit "        - Entities: Organisation, Name, PAN" ++ [LF] ++
  lit "        - Relation: PAN_Of (linking PAN to the Name)" ++ [LF] ++
  lit "        Output in CSV format with columns:" ++ [LF] ++
  lit "        Entity(PAN),Relation,Entity(Person),Organisation" ++ [LF] ++
  lit "        " ++ [LF] ++
  lit "        If no organisation, keep blank." ++ [LF] ++
  lit "        Text (Part " ++ str_of_Z i ++ lit "/" ++ str_of_Z total_chunks
    ++ lit "):" ++ [LF] ++
  [LF] ++
  lit "        " ++ chunk ++ [LF].

(** The texts shown to the user. *)
Definition starting_text : str := [0x23F3] ++ lit " Starting entity extraction...".
Definition processing_text (i total_chunks : Z) : str :=
  [0x1F50D] ++ lit " Processing chunk " ++ str_of_Z i ++ lit "/"
    ++ str_of_Z total_chunks ++ lit "...".
Definition error_text (i : Z) (e : exn) : str :=
  [0x274C] ++ lit " Error in chunk " ++ str_of_Z i ++ lit ": " ++ exn_msg e.
Definition completed_text : str := [0x2705] ++ lit " Completed all chunks!".

Section Pipeline.

Variable complete : service.

(** [client.chat.complete(model=..., messages=[...])]: the call is
    recorded, and the service's answer to this call comes back. *)
Definition chat_complete (model prompt : str) : M chat_response :=
  fun t => (complete (calls t) model prompt, t ++ [ChatComplete model prompt]).

(** The body of the [try]: the call, then
    [response.choices[0].message.content.strip()]. *)
Definition request (prompt : str) : M str :=
  response <- chat_complete MODEL_NAME prompt ;;
  choice <- first_item (choices response) ;;
  content_strip (content choice).

(** One iteration of the loop; the value is [all_results] after it. *)
Definition process_chunk (total_chunks : Z) (all_results : list str)
    (item : Z * str) : M (list str) :=
  let (i, chunk) := item in
  v <- truediv i total_chunks ;;
  progress_progress v (processing_text i total_chunks) ;;
  let prompt := prompt_for i total_chunks chunk in
  try_except
    (result <- request prompt ;;
     ret (all_results ++ [result]))
    (fun e =>
       emit (StError (error_text i e)) ;;
       ret all_results).

(** [for i, chunk in enumerate(chunks, start=1): ...] *)
Fixpoint for_chunks (total_chunks : Z) (items : list (Z * str))
    (all_results : list str) : M (list str) :=
  match items with
  | [] => ret all_results
  | item :: r =>
      all_results <- process_chunk total_chunks all_results item ;;
      for_chunks total_chunks r all_results
  end.

Definition extract_entities_relations (text : str) : M str :=
  let chunks := chunks text in
  let total_chunks := len chunks in
  st_progress (Int 0) starting_text ;;
  all_results <- for_chunks total_chunks (enumerate 1 chunks) [] ;;
  progress_progress (Float 1 1) completed_text ;;
  ret (join [LF] all_results).

End Pipeline.

(** [convert_to_csv(data_str)]: the encoded contents of [output]. *)
Definition convert_to_csv (data_str : str) : M (list Z) :=
  match Utf8.encode (csv_output data_str) with
  | inr bytes => ret bytes
  | inl pos => raise _ {| exn_type := UnicodeEncodeError pos;
                          exn_msg := lit "surrogates not allowed" |}
  end.

Definition size_warning : event :=
  StWarning ([0x26A0; 0xFE0F] ++
    lit " Your PDF is very large! Only the first part will be processed to avoid token overflow.").

(** The exception of an encoder that met a surrogate at [pos]. *)
Definition unicode_error (pos : Z) : exn :=
  {| exn_type := UnicodeEncodeError pos; exn_msg := lit "surrogates not allowed" |}.

(** [st.text_area(label, value, ...)]: the value goes to the front end
    encoded in UTF-8, so a value that holds a surrogate is refused with
    UnicodeEncodeError and nothing is shown.  The labels of the source
    are constants without surrogates. *)
Definition st_text_area (label value : str) : M unit :=
  match Utf8.encode value with
  | inr _ => emit (StTextArea label value)
  | inl pos => raise _ (unicode_error pos)
  end.

(** [with st.spinner(text): body]: the spinner is shown on entering and
    taken away on leaving, whether the body returns or raises. *)
Definition with_spinner (A : Type) (text : str) (body : M A) : M A :=
  fun t => match body (t ++ [StSpinner text]) with
           | (r, t') => (r, t' ++ [StSpinnerDone])
           end.

(** The size guard: [if len(pdf_text) > 1_000_000: ...]; the value is
    [pdf_text] after it. *)
Definition size_guard (pdf_text : str) : M str :=
  if len pdf_text >? MAX_TEXT
  then emit size_warning ;;
       ret (slice pdf_text 0 MAX_TEXT)
  else ret pdf_text.

Definition text_extracted : event :=
  StSuccess ([0x2705] ++ lit " PDF text extracted successfully!").
Definition preview_label : str := [0x1F4DC] ++ lit " Extracted PDF Text (Preview)".
Definition sending_text : str := [0x1F50D] ++ lit " Sending text to Mistral API...".
Definition entities_extracted : event :=
  StSuccess ([0x2705] ++ lit " Entities extracted successfully!").
Definition data_label : str :=
  [0x1F9FE] ++ lit " Extracted Entities & Relations (CSV Format)".

(** The upload handler from the size guard on, given the extracted text:
    cap, show the preview, extract under the spinner, show the data,
    convert, offer the download. *)
Definition on_extract (complete : service) (pdf_text : str) : M (list Z) :=
  pdf_text <- size_guard pdf_text ;;
  emit text_extracted ;;
  st_text_area preview_label (slice pdf_text 0 1000) ;;
  extracted_data <-
    with_spinner sending_text (extract_entities_relations complete pdf_text) ;;
  emit entities_extracted ;;
  st_text_area data_label extracted_data ;;
  csv_data <- convert_to_csv extracted_data ;;
  emit (StDownloadButton csv_data) ;;
  ret csv_data.

(** ** Reading the chunker and the codec *)

(** Number of indices that the chunker's range yields from [i] on, for
    the step [c] and the bound [n]: the ceiling of [(n - i) / c]. *)
Definition steps (c n i : Z) : Z := Z.max 0 ((n - i + c - 1) / c).

(** A code point that UTF-8 encodes. *)
Definition encodable (c : char) : Prop :=
  is_code_point c = true /\ is_surrogate c = false.

(** A text without the separator. *)
Definition sep_free (sep : char) (x : str) : bool :=
  negb (existsb (Z.eqb sep) x).

(** Linear arithmetic with division and remainder by constants. *)
Ltac dlia := Z.div_mod_to_equations; lia.

(** ** Reading a table

    The vocabulary in which the serializer is described. *)

(** The rows that [convert_to_csv] writes. *)
Definition csv_rows (data_str : str) : list (list str) :=
  map csv_row (csv_lines data_str).

(** A line of white space only, the empty line included. *)
Definition blank (s : str) : bool := forallb isspace s.

Definition is_empty (s : str) : bool :=
  match s with [] => true | _ :: _ => false end.

(** The lines without the trailing ones that satisfy [p]. *)
Definition drop_trailing (p : str -> bool) (ls : list str) : list str :=
  rev (dropwhile p (rev ls)).

(** The lines without the blank ones at either end. *)
Definition trim_blank_lines (ls : list str) : list str :=
  drop_trailing blank (dropwhile blank ls).

(** The rows in the words of the specification: the text is split into
    lines on line breaks, the empty trailing lines are dropped, and each
    line is split into trimmed fields. *)
Definition spec_lines (data_str : str) : list str :=
  drop_trailing is_empty (split LF data_str).

Definition spec_rows (data_str : str) : list (list str) :=
  map csv_row (spec_lines data_str).

(** Occurrences of a character. *)
Definition count (c : char) (s : str) : Z := len (filter (Z.eqb c) s).

(** A line or a field with its first piece trimmed on the left, and with
    its last piece trimmed on the right. *)
Definition lstrip_head (ls : list str) : list str :=
  match ls with
  | [] => []
  | l :: r => lstrip l :: r
  end.

Definition rstrip_last (ls : list str) : list str :=
  match rev ls with
  | [] => []
  | y :: r => rev r ++ [rstrip y]
  end.

(** ** Reading a run

    The vocabulary in which runs are described: what the extraction of
    one segment came to, and what a run shows of it. *)

(** What the body of the [try] comes to on the service's answer: the
    trimmed content of the first choice, or the exception raised on the
    way. *)
Definition attempt (answer : exn + chat_response) : exn + str :=
  match answer with
  | inl e => inl e
  | inr response =>
      match choices response with
      | [] => inl index_error
      | choice :: _ =>
          match content choice with
          | None => inl none_has_no_strip
          | Some s => inr (strip s)
          end
      end
  end.

(** The outcomes of the segments [items], in order, when the first of
    them is served by call number [k]: each segment index with the
    result of its extraction. *)
Fixpoint outcomes (complete : service) (total_chunks : Z) (k : nat)
    (items : list (Z * str)) : list (Z * (exn + str)) :=
  match items with
  | [] => []
  | (i, chunk) :: r =>
      (i, attempt (complete k MODEL_NAME (prompt_for i total_chunks chunk)))
        :: outcomes complete total_chunks (S k) r
  end.

(** The outcomes of a run on [text] that starts from the trace [tr]. *)
Definition run_outcomes (complete : service) (text : str) (tr : trace)
  : list (Z * (exn + str)) :=
  outcomes complete (len (chunks text)) (calls tr) (enumerate 1 (chunks text)).

Definition succeeded (o : Z * (exn + str)) : bool :=
  match snd o with inr _ => true | inl _ => false end.

(** Payloads of the successful segments, in order. *)
Fixpoint payloads (outs : list (Z * (exn + str))) : list str :=
  match outs with
  | [] => []
  | (_, inr p) :: r => p :: payloads r
  | (_, inl _) :: r => payloads r
  end.

(** Indices of the failed segments, in order. *)
Fixpoint skipped (outs : list (Z * (exn + str))) : list Z :=
  match outs with
  | [] => []
  | (i, inl _) :: r => i :: skipped r
  | (_, inr _) :: r => skipped r
  end.

(** What one iteration adds to the trace. *)
Definition chunk_events (total_chunks : Z) (item : Z * str)
    (o : Z * (exn + str)) : trace :=
  [ProgressUpdate (Float (fst item) total_chunks)
                  (processing_text (fst item) total_chunks);
   ChatComplete MODEL_NAME (prompt_for (fst item) total_chunks (snd item))]
  ++ match snd o with
     | inl e => [StError (error_text (fst item) e)]
     | inr _ => []
     end.

Fixpoint loop_events (total_chunks : Z) (items : list (Z * str))
    (outs : list (Z * (exn + str))) : trace :=
  match items, outs with
  | item :: r, o :: os => chunk_events total_chunks item o ++ loop_events total_chunks r os
  | _, _ => []
  end.

(** Events of a trace by kind. *)
Definition is_progress_update (ev : event) : bool :=
  match ev with ProgressUpdate _ _ => true | _ => false end.
Definition is_error (ev : event) : bool :=
  match ev with StError _ => true | _ => false end.
Definition is_call (ev : event) : bool :=
  match ev with ChatComplete _ _ => true | _ => false end.

(** The events a run added to the trace [tr] it started from. *)
Definition emitted (tr tr' : trace) : trace := skipn (List.length tr) tr'.

(** The error notifications that the outcomes call for. *)
Fixpoint error_events (outs : list (Z * (exn + str))) : trace :=
  match outs with
  | [] => []
  | (i, inl e) :: r => StError (error_text i e) :: error_events r
  | (_, inr _) :: r => error_events r
  end.

(** For each progress update of a trace, the number of extraction calls
    made before it, [done] calls having been made before the trace. *)
Fixpoint calls_before_updates (done : nat) (tr : trace) : list nat :=
  match tr with
  | [] => []
  | ProgressUpdate _ _ :: r => done :: calls_before_updates done r
  | ChatComplete _ _ :: r => calls_before_updates (S done) r
  | _ :: r => calls_before_updates done r
  end.

(** The values the progress updates of a trace carry. *)
Fixpoint update_values (tr : trace) : list number :=
  match tr with
  | [] => []
  | ProgressUpdate v _ :: r => v :: update_values r
  | _ :: r => update_values r
  end.

Definition has_line_break (s : str) : bool := existsb (Z.eqb LF) s.

(** Number of lines of a text: its pieces between line breaks. *)
Definition line_count (s : str) : Z := len (split LF s).

(** ** Scenarios

    Scripted services and small texts on which runs are evaluated. *)

Definition answer (s : string) : exn + chat_response :=
  inr {| choices := [ {| content := Some (lit s) |} ] |}.

Definition failure (msg : string) : exn + chat_response :=
  inl {| exn_type := ServiceError; exn_msg := lit msg |}.

(** The service that gives the scripted answers, call after call. *)
Definition scripted (answers : list (exn + chat_response)) : service :=
  fun k _ _ => nth k answers (failure "no answer left").

(** A text of [n] characters. *)
Definition text_of_length (n : Z) : str := repeat 97 (Z.to_nat n).

(** ** extract_pdf_text

    What PyPDF2 makes of the uploaded file is taken as given: the reader
    raises or gives the pages, and the text extraction of a page raises
    or gives its text, possibly [None]. *)

Definition pdf_page := (exn + option str)%type.
Definition pdf_file := (exn + list pdf_page)%type.

(** [PyPDF2.PdfReader(file)], then [pdf_reader.pages] *)
Definition pdf_reader (file : pdf_file) : M (list pdf_page) :=
  match file with
  | inl e => raise _ e
  | inr pages => ret pages
  end.

(** [page.extract_text()] *)
Definition page_extract_text (page : pdf_page) : M (option str) :=
  match page with
  | inl e => raise _ e
  | inr page_text => ret page_text
  end.

(** The truth value of [page_text]: [None] and the empty string are
    false. *)
Definition truthy (page_text : option str) : bool :=
  match page_text with
  | Some (_ :: _) => true
  | _ => false
  end.

(** [for page in pdf_reader.pages: ...]; the value is [text] after the
    loop. *)
Fixpoint for_pages (pages : list pdf_page) (text : str) : M str :=
  match pages with
  | [] => ret text
  | page :: r =>
      page_text <- page_extract_text page ;;
      for_pages r (match page_text with
                   | Some t => if truthy page_text then text ++ t ++ [LF] else text
                   | None => text
                   end)
  end.

Definition extract_pdf_text (file : pdf_file) : M str :=
  pages <- pdf_reader file ;;
  text <- for_pages pages [] ;;
  ret (strip text).

Definition extracting_text : str := lit "Extracting text from PDF...".

(** The handler of the button from the upload on: the text is extracted
    from the file under a spinner and handed to the rest of the handler. *)
Definition on_click (complete : service) (uploaded_file : pdf_file) : M (list Z) :=
  pdf_text <- with_spinner extracting_text (extract_pdf_text uploaded_file) ;;
  on_extract complete pdf_text.

(** ** Reading a PDF, a request and a table text *)

(** The texts of the pages that count, in page order. *)
Fixpoint page_texts (pages : list pdf_page) : list str :=
  match pages with
  | [] => []
  | inr (Some (c :: t)) :: r => (c :: t) :: page_texts r
  | _ :: r => page_texts r
  end.

(** No page raises. *)
Definition readable (pages : list pdf_page) : bool :=
  forallb (fun page => match page with inr _ => true | inl _ => false end) pages.

Definition is_warning (ev : event) : bool :=
  match ev with StWarning _ => true | _ => false end.
Definition is_download (ev : event) : bool :=
  match ev with StDownloadButton _ => true | _ => false end.

(** What the size guard shows. *)
Definition guard_events (pdf_text : str) : trace :=
  if len pdf_text >? MAX_TEXT then [size_warning] else [].

(** A text that holds a surrogate, which no encoder accepts. *)
Definition has_surrogate (s : str) : bool := existsb is_surrogate s.

(** What a run of the extraction loop adds to the trace. *)
Definition run_events (complete : service) (text : str) (tr : trace) : trace :=
  emitted tr (snd (extract_entities_relations complete text tr)).

(** The trace at which the handler starts the extraction on [pdf_text],
    the text as extracted: after the guard, the success message, the
    preview and the spinner. *)
Definition trace_at_run (pdf_text : str) (tr : trace) : trace :=
  tr ++ guard_events pdf_text
     ++ [text_extracted;
         StTextArea preview_label (slice pdf_text 0 1000);
         StSpinner sending_text].

(** The extracted data of the handler's run. *)
Definition handler_data (complete : service) (pdf_text : str) (tr : trace) : str :=
  join [LF] (payloads (run_outcomes complete (cap_text pdf_text)
                                    (trace_at_run pdf_text tr))).

(** The request that the loop makes for one enumerated chunk. *)
Definition request_event (total_chunks : Z) (item : Z * str) : event :=
  ChatComplete MODEL_NAME (prompt_for (fst item) total_chunks (snd item)).

(** A field as the writer copies it: between quotes when it holds a
    special character. *)
Definition written_field (field : str) : str :=
  let q := if existsb Csv.special field then [Csv.quotechar] else [] in
  q ++ Csv.field_data field ++ q.

(** A reader of table text, quote aware: fields end at a comma or at the
    line terminator outside quotes, and a doubled quote inside quotes
    stands for a quote.  [field] and [fields] are the field and the row
    under way, last read first. *)
Inductive reader_state :=
| StartRecord | StartField | InField | InQuoted | QuoteInQuoted | AfterCr.

Fixpoint read (st : reader_state) (field : str) (fields : list str)
    (rows : list (list str)) (s : str) : option (list (list str)) :=
  match s with
  | [] => match st with StartRecord => Some (rev rows) | _ => None end
  | c :: r =>
      match st with
      | StartRecord =>
          if c =? CR then read AfterCr [] [] rows r
          else if c =? DQUOTE then read InQuoted [] [] rows r
          else if c =? COMMA then read StartField [] [[]] rows r
          else read InField [c] [] rows r
      | StartField =>
          if c =? DQUOTE then read InQuoted [] fields rows r
          else if c =? COMMA then read StartField [] ([] :: fields) rows r
          else if c =? CR then read AfterCr [] ([] :: fields) rows r
          else read InField [c] fields rows r
      | InField =>
          if c =? COMMA then read StartField [] (rev field :: fields) rows r
          else if c =? CR then read AfterCr [] (rev field :: fields) rows r
          else read InField (c :: field) fields rows r
      | InQuoted =>
          if c =? DQUOTE then read QuoteInQuoted field fields rows r
          else read InQuoted (c :: field) fields rows r
      | QuoteInQuoted =>
          if c =? DQUOTE then read InQuoted (c :: field) fields rows r
          else if c =? COMMA then read StartField [] (rev field :: fields) rows r
          else if c =? CR then read AfterCr [] (rev field :: fields) rows r
          else None
      | AfterCr =>
          if c =? LF then read StartRecord [] [] (rev fields :: rows) r
          else None
      end
  end.

Definition read_table (s : str) : option (list (list str)) :=
  read StartRecord [] [] [] s.

(** The state of the reader after the delimiter [d]. *)
Definition after (d : char) : reader_state :=
  if d =? COMMA then StartField else AfterCr.

(** * Properties *)

(** ** Lists and slices *)

Section ListFacts.

Variable A : Type.
Implicit Types (s : list A).

Lemma len_nonneg s : 0 <= len s.
Proof. unfold len. lia. Qed.

Lemma len_app s1 s2 : len (s1 ++ s2) = len s1 + len s2.
Proof. unfold len. rewrite length_app. lia. Qed.

Lemma len_nil_inv s : len s = 0 -> s = [].
Proof. unfold len. destruct s; simpl; [reflexivity | lia]. Qed.

Lemma len_repeat (x : A) (n : Z) : 0 <= n -> len (repeat x (Z.to_nat n)) = n.
Proof. intros Hn. unfold len. rewrite repeat_length. lia. Qed.

Lemma len_firstn s (k : Z) :
  0 <= k -> len (firstn (Z.to_nat k) s) = Z.min k (len s).
Proof. intros Hk. unfold len. rewrite length_firstn. lia. Qed.

Lemma len_skipn s (k : Z) :
  0 <= k -> len (skipn (Z.to_nat k) s) = Z.max 0 (len s - k).
Proof. intros Hk. unfold len. rewrite length_skipn. lia. Qed.

(** A slice that starts inside the string is a prefix of a suffix. *)
Lemma slice_window s (i c : Z) :
  0 <= i <= len s -> 0 <= c ->
  slice s i (i + c) = firstn (Z.to_nat c) (skipn (Z.to_nat i) s).
Proof.
  intros Hi Hc. unfold slice, adjust.
  assert (Hlo : (i <? 0) = false) by lia.
  assert (Hhi : (i + c <? 0) = false) by lia.
  rewrite Hlo, Hhi.
  replace (Z.min i (len s)) with i by lia.
  pose proof (len_skipn s (proj1 Hi)) as Hl.
  destruct (Z.le_gt_cases (i + c) (len s)) as [Hle | Hgt].
  - replace (Z.min (i + c) (len s) - i) with c by lia. reflexivity.
  - replace (Z.min (i + c) (len s) - i) with (len s - i) by lia.
    rewrite !firstn_all2; [reflexivity | | ]; unfold len in *; lia.
Qed.

Lemma slice_prefix s (k : Z) :
  0 <= k -> slice s 0 k = firstn (Z.to_nat k) s.
Proof.
  intros Hk. pose proof (len_nonneg s).
  replace k with (0 + k) at 1 by lia.
  rewrite slice_window by lia. reflexivity.
Qed.

Lemma skipn_whole s (i : Z) : len s <= i -> skipn (Z.to_nat i) s = [].
Proof. intros Hi. apply skipn_all2. unfold len in Hi. lia. Qed.

End ListFacts.

(** ** The index range of the chunker *)

Section Range.

Variables (c n : Z).
Hypothesis c_pos : 0 < c.

Lemma steps_done i : n <= i -> steps c n i = 0.
Proof.
  intros Hi. unfold steps.
  assert ((n - i + c - 1) / c < 1) by (apply Z.div_lt_upper_bound; lia).
  lia.
Qed.

Lemma steps_step i : i < n -> steps c n i = 1 + steps c n (i + c).
Proof.
  intros Hi. unfold steps.
  replace (n - i + c - 1) with (n - (i + c) + c - 1 + 1 * c) by lia.
  rewrite Z.div_add by lia.
  destruct (Z.le_gt_cases n (i + c)) as [Hle | Hgt].
  - assert ((n - (i + c) + c - 1) / c < 1) by (apply Z.div_lt_upper_bound; lia).
    assert (0 <= (n - (i + c) + c - 1) / c) by (apply Z.div_pos; lia).
    lia.
  - assert (0 <= (n - (i + c) + c - 1) / c) by (apply Z.div_pos; lia).
    lia.
Qed.

Lemma steps_nonneg i : 0 <= steps c n i.
Proof. unfold steps. lia. Qed.

(** With fuel [n - i] the loop stops on its own test: it yields the
    indices [i], [i + c], ... below [n], all [steps c n i] of them. *)
Lemma range_loop_spec fuel : forall i,
  n - i <= Z.of_nat fuel ->
  range_loop fuel i n c
  = map (fun k => i + Z.of_nat k * c) (seq 0 (Z.to_nat (steps c n i))).
Proof.
  induction fuel as [| f IH]; intros i Hf.
  - rewrite steps_done by lia. reflexivity.
  - cbn [range_loop]. destruct (Z.ltb_spec i n) as [Hlt | Hge].
    + rewrite steps_step by assumption.
      pose proof (steps_nonneg (i + c)).
      replace (Z.to_nat (1 + steps c n (i + c))) with (S (Z.to_nat (steps c n (i + c)))) by lia.
      cbn [seq map]. f_equal; [lia |].
      rewrite IH by lia. rewrite <- seq_shift, map_map.
      apply map_ext. intros k. lia.
    + rewrite steps_done by lia. reflexivity.
Qed.

End Range.

Lemma range_spec (n c : Z) :
  0 < c -> 0 <= n ->
  range 0 n c = map (fun k => Z.of_nat k * c) (seq 0 (Z.to_nat ((n + c - 1) / c))).
Proof.
  intros Hc Hn. unfold range. rewrite (@range_loop_spec c n Hc) by lia.
  unfold steps. replace (n - 0 + c - 1) with (n + c - 1) by lia.
  assert (0 <= (n + c - 1) / c) by (apply Z.div_pos; lia).
  replace (Z.max 0 ((n + c - 1) / c)) with ((n + c - 1) / c) by lia.
  apply map_ext. intros k. lia.
Qed.

(** ** Chunker *)

Section Chunker.

Variable A : Type.
Variable c : Z.
Hypothesis c_pos : 0 < c.
Implicit Types (text : list A).

Lemma chunks_from_concat text fuel : forall i,
  0 <= i -> len text - i <= Z.of_nat fuel ->
  concat (map (fun j => slice text j (j + c)) (range_loop fuel i (len text) c))
  = skipn (Z.to_nat i) text.
Proof.
  induction fuel as [| f IH]; intros i Hi Hf.
  - simpl. symmetry. apply skipn_whole. lia.
  - cbn [range_loop]. destruct (Z.ltb_spec i (len text)) as [Hlt | Hge].
    + cbn [map concat]. rewrite IH by lia.
      rewrite slice_window by lia.
      replace (Z.to_nat (i + c)) with (Z.to_nat c + Z.to_nat i)%nat by lia.
      rewrite <- skipn_skipn. apply firstn_skipn.
    + simpl. symmetry. apply skipn_whole. lia.
Qed.

Lemma chunks_of_concat text : concat (chunks_of c text) = text.
Proof.
  unfold chunks_of, range.
  rewrite chunks_from_concat by lia. reflexivity.
Qed.

Lemma chunks_of_count text : len (chunks_of c text) = (len text + c - 1) / c.
Proof.
  pose proof (len_nonneg text) as Hn.
  unfold chunks_of. rewrite range_spec by lia.
  unfold len at 1. rewrite !length_map, length_seq.
  assert (0 <= (len text + c - 1) / c) by (apply Z.div_pos; lia).
  lia.
Qed.

(** The chunk of rank [j] (from 0) is the window of width [c] at [j * c]. *)
Lemma chunks_of_nth text (j : nat) :
  Z.of_nat j < len (chunks_of c text) ->
  nth_error (chunks_of c text) j
  = Some (firstn (Z.to_nat c) (skipn (Z.to_nat (Z.of_nat j * c)) text))
  /\ Z.of_nat j * c < len text.
Proof.
  intros Hj. rewrite chunks_of_count in Hj.
  pose proof (len_nonneg text) as Hn.
  assert (Hlt : Z.of_nat j * c < len text).
  { assert (Z.of_nat j + 1 <= (len text + c - 1) / c) as Hq by lia.
    pose proof (Z.mul_div_le (len text + c - 1) c c_pos) as Hm.
    nia. }
  split; [| exact Hlt].
  unfold chunks_of. rewrite range_spec by lia.
  rewrite map_map. rewrite nth_error_map.
  rewrite nth_error_seq.
  destruct (Nat.ltb_spec j (Z.to_nat ((len text + c - 1) / c))) as [_ | Hge]; [| lia].
  cbn [option_map Nat.add]. f_equal. apply slice_window; lia.
Qed.

End Chunker.

Lemma nth_error_Some_bound (A : Type) (l : list A) (j : nat) (x : A) :
  nth_error l j = Some x -> Z.of_nat j < len l.
Proof.
  intros H. assert (j < List.length l)%nat by (apply nth_error_Some; congruence).
  unfold len. lia.
Qed.

(** C1.  For every text [t] and chunk size [c > 0], the chunks
    concatenated in index order give [t] back exactly; the chunk of rank
    [j] is the slice of [t] that starts at [j * c], so chunks neither
    overlap, nor leave a gap, nor change order. *)
Theorem chunker_concat_roundtrip (c : Z) (t : str) :
  0 < c ->
  concat (chunks_of c t) = t
  /\ (forall (j : nat) (ch : str),
        nth_error (chunks_of c t) j = Some ch ->
        ch = slice t (Z.of_nat j * c) (Z.of_nat j * c + c)).
Proof.
  intros Hc. split.
  - apply chunks_of_concat; assumption.
  - intros j ch Hj.
    assert (Hlt : Z.of_nat j < len (chunks_of c t)).
    { exact (nth_error_Some_bound _ _ Hj). }
    destruct (chunks_of_nth Hc t j Hlt) as [Hnth Hin].
    rewrite Hnth in Hj. injection Hj as <-.
    symmetry. apply slice_window; lia.
Qed.

(** C1 at a text of eight characters cut by threes, and at a short text
    under the configured size. *)
Lemma chunker_concat_roundtrip_witness :
  concat (chunks_of 3 (lit "abcdefgh")) = lit "abcdefgh"
  /\ concat (chunks (lit "PAN ABCDE1234F")) = lit "PAN ABCDE1234F".
Proof.
  split.
  - apply (chunker_concat_roundtrip (c := 3) (lit "abcdefgh")). lia.
  - apply (chunker_concat_roundtrip (c := CHUNK_SIZE) (lit "PAN ABCDE1234F")).
    reflexivity.
Defined.

(** The configured chunk size is positive, so the program's own chunking
    round-trips on every text. *)
Corollary chunks_concat (t : str) : concat (chunks t) = t.
Proof. apply chunks_of_concat. reflexivity. Qed.

(** C2.  For every text [t] and chunk size [c > 0], the number of chunks
    is the ceiling of [len t / c]: it is [(len t + c - 1) / c], the least
    [k] with [len t <= k * c].  Every chunk but the last has length [c],
    and the last has length [len t mod c], or [c] when [c] divides
    [len t]. *)
Theorem chunker_count_and_lengths (c : Z) (t : str) :
  0 < c ->
  let k := len (chunks_of c t) in
  k = (len t + c - 1) / c
  /\ (k - 1) * c < len t <= k * c
  /\ (forall (j : nat) (ch : str),
        Z.of_nat j < k - 1 ->
        nth_error (chunks_of c t) j = Some ch -> len ch = c)
  /\ (forall ch : str,
        nth_error (chunks_of c t) (Z.to_nat (k - 1)) = Some ch ->
        len ch = if len t mod c =? 0 then c else len t mod c).
Proof.
  intros Hc k.
  pose proof (len_nonneg t) as Hn.
  assert (Hk : k = (len t + c - 1) / c) by (apply chunks_of_count; assumption).
  assert (Hceil : (k - 1) * c < len t <= k * c).
  { pose proof (Z.mul_div_le (len t + c - 1) c Hc) as H1.
    pose proof (Z.mul_succ_div_gt (len t + c - 1) c Hc) as H2.
    rewrite <- Hk in H1, H2. nia. }
  assert (Hlen : forall (j : nat) (ch : str),
             nth_error (chunks_of c t) j = Some ch ->
             len ch = Z.min c (len t - Z.of_nat j * c)).
  { intros j ch Hj.
    assert (Hlt : Z.of_nat j < len (chunks_of c t)).
    { exact (nth_error_Some_bound _ _ Hj). }
    destruct (chunks_of_nth Hc t j Hlt) as [Hnth Hin].
    rewrite Hnth in Hj. injection Hj as <-.
    rewrite len_firstn by lia. rewrite len_skipn by lia. lia. }
  repeat split; try tauto.
  - intros j ch Hj Hnth. rewrite (Hlen j ch Hnth). nia.
  - intros ch Hnth.
    assert (Hk1 : 1 <= k).
    { pose proof (nth_error_Some_bound _ _ Hnth) as Hb.
      change (Z.of_nat (Z.to_nat (k - 1)) < k) in Hb. lia. }
    rewrite (Hlen _ ch Hnth). rewrite Z2Nat.id by lia.
    destruct (Z.eq_dec (len t) (k * c)) as [Heq | Hne].
    + rewrite Heq, Z.mod_mul by lia. simpl. nia.
    + assert (Hr : len t - (k - 1) * c = len t mod c).
      { apply Z.mod_unique with (q := k - 1); lia. }
      rewrite <- Hr. destruct (Z.eqb_spec (len t - (k - 1) * c) 0); lia.
Qed.

(** C2 at a text of eight characters cut by threes: three chunks. *)
Lemma chunker_count_and_lengths_witness :
  len (chunks_of 3 (lit "abcdefgh")) = (len (lit "abcdefgh") + 3 - 1) / 3.
Proof.
  apply (chunker_count_and_lengths (c := 3) (lit "abcdefgh")). lia.
Defined.

(** With the configured size: the scenario of a 45,000 character text. *)
Corollary chunks_count (t : str) :
  len (chunks t) = (len t + CHUNK_SIZE - 1) / CHUNK_SIZE.
Proof. exact (chunks_of_count (c := CHUNK_SIZE) eq_refl t). Qed.

(** ** Size guard *)

Lemma cap_text_long (t : str) :
  len t > MAX_TEXT -> cap_text t = firstn (Z.to_nat MAX_TEXT) t.
Proof.
  intros H. unfold cap_text.
  replace (len t >? MAX_TEXT) with true by (symmetry; apply Z.gtb_lt; lia).
  apply slice_prefix. discriminate.
Qed.

Lemma cap_text_short (t : str) : len t <= MAX_TEXT -> cap_text t = t.
Proof.
  intros H. unfold cap_text.
  destruct (Z.gtb_spec (len t) MAX_TEXT); [lia | reflexivity].
Qed.

Lemma cap_text_len (t : str) : len (cap_text t) = Z.min (len t) MAX_TEXT.
Proof.
  destruct (Z.le_gt_cases (len t) MAX_TEXT) as [Hle | Hgt].
  - rewrite cap_text_short by assumption. lia.
  - rewrite cap_text_long by lia. rewrite len_firstn by discriminate. lia.
Qed.

(** ** The extraction loop *)

Section Run.

Variable complete : service.

Lemma calls_app (t1 t2 : trace) : calls (t1 ++ t2) = (calls t1 + calls t2)%nat.
Proof. unfold calls. rewrite filter_app, length_app. reflexivity. Qed.

(** The body of the [try] makes exactly one call and comes to [attempt]
    of the answer. *)
Lemma request_spec (prompt : str) (tr : trace) :
  request complete prompt tr
  = (attempt (complete (calls tr) MODEL_NAME prompt),
     tr ++ [ChatComplete MODEL_NAME prompt]).
Proof.
  unfold request, bind, chat_complete, attempt.
  destruct (complete (calls tr) MODEL_NAME prompt) as [e | [[| [[s |]] more]]];
    reflexivity.
Qed.

Lemma process_chunk_spec (total i : Z) (chunk : str) (acc : list str) (tr : trace) :
  0 < i <= total ->
  let o := (i, attempt (complete (calls tr) MODEL_NAME (prompt_for i total chunk))) in
  process_chunk complete total acc (i, chunk) tr
  = (inr (acc ++ payloads [o]), tr ++ chunk_events total (i, chunk) o).
Proof.
  intros Hi o. unfold process_chunk, truediv.
  replace (total =? 0) with false by lia.
  unfold bind at 1, ret at 1.
  unfold progress_progress, progress_value_ok.
  replace (0 <? total) with true by lia.
  replace (0 <=? i) with true by lia.
  replace (i <=? total) with true by lia.
  cbn [andb]. unfold bind at 1, emit at 1.
  unfold try_except, bind at 1. rewrite request_spec.
  rewrite calls_app. cbn [calls filter List.length Nat.add]. rewrite Nat.add_0_r.
  subst o. unfold chunk_events. cbn [fst snd payloads].
  destruct (attempt _) as [e | p].
  - unfold bind, emit, ret. rewrite app_nil_r.
    f_equal. rewrite <- !app_assoc. reflexivity.
  - unfold ret. rewrite app_nil_r.
    f_equal. rewrite <- !app_assoc. reflexivity.
Qed.

Lemma calls_chunk_events (total : Z) (item : Z * str) (o : Z * (exn + str)) :
  calls (chunk_events total item o) = 1%nat.
Proof. unfold chunk_events. destruct (snd o); reflexivity. Qed.

Lemma payloads_app (o1 o2 : list (Z * (exn + str))) :
  payloads (o1 ++ o2) = payloads o1 ++ payloads o2.
Proof.
  induction o1 as [| [i [e | p]] r IH]; simpl; [reflexivity | exact IH |].
  rewrite IH. reflexivity.
Qed.

Lemma skipped_app (o1 o2 : list (Z * (exn + str))) :
  skipped (o1 ++ o2) = skipped o1 ++ skipped o2.
Proof.
  induction o1 as [| [i [e | p]] r IH]; simpl; [reflexivity | | exact IH].
  rewrite IH. reflexivity.
Qed.

(** The loop never raises: every iteration runs, whatever the outcomes. *)
Lemma for_chunks_spec (total : Z) (items : list (Z * str)) :
  forall (acc : list str) (tr : trace),
  Forall (fun item => 0 < fst item <= total) items ->
  for_chunks complete total items acc tr
  = (inr (acc ++ payloads (outcomes complete total (calls tr) items)),
     tr ++ loop_events total items (outcomes complete total (calls tr) items)).
Proof.
  induction items as [| [i chunk] r IH]; intros acc tr Hall.
  - simpl. unfold ret. rewrite !app_nil_r. reflexivity.
  - inversion Hall as [| ? ? Hi Hr]; subst. cbn [fst] in Hi.
    cbn [for_chunks]. unfold bind at 1.
    rewrite process_chunk_spec by exact Hi.
    rewrite IH by exact Hr.
    rewrite calls_app, calls_chunk_events, Nat.add_1_r.
    cbn [outcomes loop_events].
    rewrite <- !app_assoc, <- payloads_app. reflexivity.
Qed.

Lemma enumerate_bounds (A : Type) (xs : list A) : forall start : Z,
  Forall (fun item => start <= fst item < start + len xs) (enumerate start xs).
Proof.
  induction xs as [| x r IH]; intros start; simpl; constructor.
  - simpl. unfold len. simpl List.length. lia.
  - eapply Forall_impl; [| apply IH].
    intros item. unfold len. simpl List.length. lia.
Qed.

Lemma enumerate_length (A : Type) (xs : list A) (start : Z) :
  List.length (enumerate start xs) = List.length xs.
Proof. revert start. induction xs; intros; simpl; congruence. Qed.

Lemma outcomes_length (total : Z) (items : list (Z * str)) : forall k,
  List.length (outcomes complete total k items) = List.length items.
Proof. induction items as [| [i ch] r IH]; intros; simpl; congruence. Qed.

Lemma outcomes_indices (total : Z) (items : list (Z * str)) : forall k,
  map fst (outcomes complete total k items) = map fst items.
Proof.
  induction items as [| [i ch] r IH]; intros; simpl; [| rewrite IH]; reflexivity.
Qed.

Lemma enumerate_indices (A : Type) (xs : list A) : forall start : Z,
  map fst (enumerate start xs)
  = map (fun j => start + Z.of_nat j) (seq 0 (List.length xs)).
Proof.
  induction xs as [| x r IH]; intros start; simpl; [reflexivity |].
  f_equal; [lia |]. rewrite IH, <- seq_shift, map_map.
  apply map_ext. intros j. lia.
Qed.

(** The whole run, as one equation: it returns the payloads of the
    successful segments joined by line breaks, and its trace is the
    opening of the progress bar, the events of the iterations in order,
    and the closing progress update. *)
Lemma run_spec (text : str) (tr : trace) :
  extract_entities_relations complete text tr
  = (inr (join [LF] (payloads (run_outcomes complete text tr))),
     tr ++ [StProgress (Int 0) starting_text]
        ++ loop_events (len (chunks text)) (enumerate 1 (chunks text))
                       (run_outcomes complete text tr)
        ++ [ProgressUpdate (Float 1 1) completed_text]).
Proof.
  unfold extract_entities_relations, run_outcomes.
  unfold bind at 1, st_progress. cbn [progress_value_ok Z.leb andb Z.compare].
  unfold emit at 1. unfold bind at 1.
  rewrite for_chunks_spec.
  - rewrite calls_app. cbn [calls filter List.length]. rewrite Nat.add_0_r.
    unfold bind, progress_progress, emit, ret. cbn.
    rewrite <- !app_assoc. reflexivity.
  - eapply Forall_impl; [| apply enumerate_bounds].
    intros item. cbv beta. lia.
Qed.

End Run.

(** ** What a run shows *)

Section RunFacts.

Variable complete : service.

Lemma emitted_app (tr new : trace) : emitted tr (tr ++ new) = new.
Proof.
  unfold emitted. rewrite skipn_app, skipn_all, Nat.sub_diag. reflexivity.
Qed.

Lemma succeeded_payloads (outs : list (Z * (exn + str))) :
  forallb succeeded outs = true ->
  map snd outs = map inr (payloads outs)
  /\ len (payloads outs) = len outs
  /\ skipped outs = []
  /\ error_events outs = [].
Proof.
  induction outs as [| [i [e | p]] r IH]; intros H.
  - repeat split.
  - discriminate H.
  - simpl in H. destruct (IH H) as (H1 & H2 & H3 & H4).
    simpl. rewrite H1. repeat split; try assumption.
    unfold len in *. simpl List.length. lia.
Qed.

Lemma error_events_app (o1 o2 : list (Z * (exn + str))) :
  error_events (o1 ++ o2) = error_events o1 ++ error_events o2.
Proof.
  induction o1 as [| [i [e | p]] r IH]; simpl; [reflexivity | | exact IH].
  rewrite IH. reflexivity.
Qed.

(** The error notifications of the loop are those of the failed segments. *)
Lemma loop_errors (total : Z) (items : list (Z * str)) : forall k,
  filter is_error (loop_events total items (outcomes complete total k items))
  = error_events (outcomes complete total k items).
Proof.
  induction items as [| [i chunk] r IH]; intros k; [reflexivity |].
  cbn [outcomes loop_events]. rewrite filter_app, IH.
  unfold chunk_events. cbn [fst snd].
  destruct (attempt _) as [e | p]; reflexivity.
Qed.

Lemma loop_calls_before_updates (total : Z) (items : list (Z * str)) :
  forall (k : nat) (done : nat) (rest : trace),
  calls_before_updates done
    (loop_events total items (outcomes complete total k items) ++ rest)
  = seq done (List.length items)
    ++ calls_before_updates (done + List.length items) rest.
Proof.
  induction items as [| [i chunk] r IH]; intros k done rest.
  - simpl. rewrite Nat.add_0_r. reflexivity.
  - cbn [outcomes loop_events]. rewrite <- app_assoc.
    unfold chunk_events. cbn [fst snd].
    destruct (attempt _) as [e | p]; cbn [app calls_before_updates];
      rewrite IH; cbn [List.length seq]; rewrite Nat.add_succ_r; reflexivity.
Qed.

Lemma loop_update_values (total : Z) (items : list (Z * str)) :
  forall (k : nat) (rest : trace),
  update_values (loop_events total items (outcomes complete total k items) ++ rest)
  = map (fun item => Float (fst item) total) items ++ update_values rest.
Proof.
  induction items as [| [i chunk] r IH]; intros k rest; [reflexivity |].
  cbn [outcomes loop_events]. rewrite <- app_assoc.
  unfold chunk_events. cbn [fst snd].
  destruct (attempt _) as [e | p]; cbn [app update_values map fst];
    rewrite IH; reflexivity.
Qed.

Lemma update_values_count (tr : trace) :
  len (filter is_progress_update tr) = len (update_values tr).
Proof.
  unfold len. f_equal.
  induction tr as [| [] r IH]; simpl; congruence.
Qed.

Lemma run_outcomes_length (text : str) (tr : trace) :
  len (run_outcomes complete text tr) = len (chunks text).
Proof.
  unfold run_outcomes, len. rewrite outcomes_length, enumerate_length. reflexivity.
Qed.

Lemma run_outcomes_indices (text : str) (tr : trace) :
  map fst (run_outcomes complete text tr)
  = map (fun j => 1 + Z.of_nat j) (seq 0 (List.length (chunks text))).
Proof.
  unfold run_outcomes. rewrite outcomes_indices. apply enumerate_indices.
Qed.

End RunFacts.

(** ** Lines of a joined text *)

Lemma split_no_sep (sep : char) (s : str) :
  existsb (Z.eqb sep) s = false -> split sep s = [s].
Proof.
  induction s as [| c r IH]; intros H; [reflexivity |].
  simpl in H. apply orb_false_iff in H. destruct H as [Hc Hr].
  cbn [split]. rewrite Z.eqb_sym, Hc, (IH Hr). reflexivity.
Qed.

Lemma split_app_sep (sep : char) (s rest : str) :
  existsb (Z.eqb sep) s = false ->
  split sep (s ++ sep :: rest) = s :: split sep rest.
Proof.
  induction s as [| c r IH]; intros H.
  - simpl. rewrite Z.eqb_refl. reflexivity.
  - simpl in H. apply orb_false_iff in H. destruct H as [Hc Hr].
    cbn [app split]. rewrite Z.eqb_sym, Hc, (IH Hr). reflexivity.
Qed.

Lemma split_join (sep : char) (xs : list str) :
  xs <> [] ->
  forallb (fun x => negb (existsb (Z.eqb sep) x)) xs = true ->
  split sep (join [sep] xs) = xs.
Proof.
  induction xs as [| x r IH]; intros Hne H; [congruence |].
  simpl in H. apply andb_true_iff in H. destruct H as [Hx Hr].
  apply negb_true_iff in Hx.
  destruct r as [| y r'].
  - simpl. apply split_no_sep. exact Hx.
  - change (join [sep] (x :: y :: r')) with (x ++ sep :: join [sep] (y :: r')).
    rewrite split_app_sep by exact Hx. f_equal. apply IH; [discriminate | exact Hr].
Qed.

(** ** What every run does *)

Lemma loop_calls (complete : service) (total : Z) (items : list (Z * str)) : forall k,
  calls (loop_events total items (outcomes complete total k items))
  = List.length items.
Proof.
  induction items as [| [i chunk] r IH]; intros k; [reflexivity |].
  cbn [outcomes loop_events]. rewrite calls_app, calls_chunk_events, IH.
  reflexivity.
Qed.

Lemma run_result (complete : service) (text : str) (tr : trace) :
  fst (extract_entities_relations complete text tr)
  = inr (join [LF] (payloads (run_outcomes complete text tr))).
Proof. rewrite run_spec. reflexivity. Qed.

Lemma run_errors (complete : service) (text : str) (tr : trace) :
  filter is_error (emitted tr (snd (extract_entities_relations complete text tr)))
  = error_events (run_outcomes complete text tr).
Proof.
  rewrite run_spec. cbn [snd]. rewrite emitted_app. cbn [app filter is_error].
  rewrite filter_app. unfold run_outcomes. rewrite loop_errors.
  cbn [filter is_error]. apply app_nil_r.
Qed.

(** C4.  Whatever the service answers, a run returns normally: a failed
    extraction call is caught, its segment is reported and skipped, and
    the loop goes on to the next segment, so that every segment gets its
    call and the caller receives the successful payloads joined. *)
Theorem segment_failure_never_aborts (complete : service) (text : str) (tr : trace) :
  let run := extract_entities_relations complete text tr in
  let outs := run_outcomes complete text tr in
  fst run = inr (join [LF] (payloads outs))
  /\ map fst outs = map (fun j => 1 + Z.of_nat j) (seq 0 (List.length (chunks text)))
  /\ calls (snd run) = (calls tr + List.length (chunks text))%nat
  /\ filter is_error (emitted tr (snd run)) = error_events outs.
Proof.
  cbv zeta. rewrite run_spec. cbn [fst snd].
  split; [reflexivity |]. split; [apply run_outcomes_indices |].
  split.
  - rewrite !calls_app. unfold run_outcomes. rewrite loop_calls, enumerate_length.
    cbn [calls filter List.length]. lia.
  - rewrite <- run_errors, run_spec. reflexivity.
Qed.

(** C3, as the code has it.  A run returns the aggregated text alone;
    skipped segments are not returned but reported, each by one error
    notification that names its index.  When exactly one segment [k]
    fails and all others succeed, the only error notification names [k],
    and the result is the payloads of the other [total - 1] segments, in
    their order, joined by line breaks. *)
Theorem single_failure_is_reported_and_skipped
    (complete : service) (text : str) (tr : trace)
    (k : Z) (e : exn) (pre post : list (Z * (exn + str))) :
  run_outcomes complete text tr = pre ++ (k, inl e) :: post ->
  forallb succeeded pre = true ->
  forallb succeeded post = true ->
  let run := extract_entities_relations complete text tr in
  fst run = inr (join [LF] (payloads pre ++ payloads post))
  /\ len (payloads pre ++ payloads post) = len (chunks text) - 1
  /\ map snd (pre ++ post) = map inr (payloads pre ++ payloads post)
  /\ k = len pre + 1
  /\ skipped (run_outcomes complete text tr) = [k]
  /\ filter is_error (emitted tr (snd run)) = [StError (error_text k e)].
Proof.
  intros Houts Hpre Hpost run.
  destruct (succeeded_payloads pre Hpre) as (Hp1 & Hp2 & Hp3 & Hp4).
  destruct (succeeded_payloads post Hpost) as (Hq1 & Hq2 & Hq3 & Hq4).
  pose proof (run_result complete text tr) as Hres.
  pose proof (run_outcomes_indices complete text tr) as Hidx.
  pose proof (run_errors complete text tr) as Herr.
  fold run in Hres, Herr. rewrite Houts in Hres, Hidx, Herr.
  pose proof (run_outcomes_length complete text tr) as Hlen.
  rewrite Houts in Hlen.
  repeat split.
  - rewrite Hres, payloads_app. reflexivity.
  - rewrite len_app, Hp2, Hq2. rewrite len_app in Hlen.
    unfold len in *. simpl List.length in Hlen. lia.
  - rewrite !map_app, Hp1, Hq1. reflexivity.
  - assert (Hnth : nth_error (map fst (pre ++ (k, inl e) :: post)) (List.length pre)
                   = Some k).
    { rewrite map_app, nth_error_app2; rewrite length_map; [| lia].
      rewrite Nat.sub_diag. reflexivity. }
    rewrite Hidx, nth_error_map, nth_error_seq in Hnth.
    destruct (Nat.ltb_spec (List.length pre) (List.length (chunks text)));
      [| discriminate Hnth].
    change (Some (1 + Z.of_nat (List.length pre)) = Some k) in Hnth.
    assert (Hk : 1 + Z.of_nat (List.length pre) = k) by congruence.
    unfold len. lia.
  - rewrite Houts, skipped_app. cbn [skipped]. rewrite Hp3, Hq3. reflexivity.
  - rewrite Herr, error_events_app. cbn [error_events]. rewrite Hp4, Hq4. reflexivity.
Qed.

(** C5, as the code has it.  When every extraction call succeeds, the
    result is the trimmed payloads of all segments, in segment order,
    joined by single line breaks: one payload per segment.  It has one
    line per segment when, besides, there is a segment and no payload
    holds a line break. *)
Theorem all_success_joins_every_payload
    (complete : service) (text : str) (tr : trace) :
  forallb succeeded (run_outcomes complete text tr) = true ->
  let ps := payloads (run_outcomes complete text tr) in
  fst (extract_entities_relations complete text tr) = inr (join [LF] ps)
  /\ map snd (run_outcomes complete text tr) = map inr ps
  /\ len ps = len (chunks text)
  /\ (1 <= len (chunks text) ->
      forallb (fun p => negb (has_line_break p)) ps = true ->
      split LF (join [LF] ps) = ps
      /\ line_count (join [LF] ps) = len (chunks text)).
Proof.
  intros Hall ps.
  destruct (succeeded_payloads _ Hall) as (H1 & H2 & _ & _).
  pose proof (run_result complete text tr) as Hres.
  pose proof (run_outcomes_length complete text tr) as Hlen.
  fold ps in H1, H2.
  assert (Hn : len ps = len (chunks text)).
  { unfold len in *. lia. }
  repeat split; try assumption.
  - apply split_join; [| assumption].
    intros ->. unfold len in *. simpl in Hn. lia.
  - unfold line_count. rewrite split_join; [exact Hn | | assumption].
    intros Heq. rewrite Heq in Hn. unfold len in *. simpl in Hn. lia.
Qed.

(** C6, as the code has it.  The progress bar is updated once per
    segment, and each time before that segment's extraction call, with
    the segment's index over the number of segments; one more update
    follows the last segment.  That makes [n + 1] updates for [n]
    segments. *)
Theorem progress_updates_precede_calls (complete : service) (text : str) (tr : trace) :
  let n := List.length (chunks text) in
  let new := emitted tr (snd (extract_entities_relations complete text tr)) in
  len (filter is_progress_update new) = Z.of_nat n + 1
  /\ calls_before_updates 0 new = seq 0 (S n)
  /\ update_values new
     = map (fun j => Float (1 + Z.of_nat j) (Z.of_nat n)) (seq 0 n) ++ [Float 1 1].
Proof.
  cbv zeta. rewrite run_spec. cbn [snd]. rewrite emitted_app.
  assert (Hv : update_values
                 ([StProgress (Int 0) starting_text] ++
                  loop_events (len (chunks text)) (enumerate 1 (chunks text))
                    (run_outcomes complete text tr) ++
                  [ProgressUpdate (Float 1 1) completed_text])
               = map (fun j => Float (1 + Z.of_nat j) (Z.of_nat (List.length (chunks text))))
                     (seq 0 (List.length (chunks text))) ++ [Float 1 1]).
  { cbn [app update_values]. unfold run_outcomes. rewrite loop_update_values.
    cbn [update_values]. f_equal.
    rewrite <- (map_map fst (fun i => Float i (len (chunks text)))).
    rewrite enumerate_indices, map_map. reflexivity. }
  split; [| split].
  - rewrite update_values_count, Hv, len_app. unfold len.
    rewrite length_map, length_seq. simpl List.length. lia.
  - cbn [app calls_before_updates]. unfold run_outcomes.
    rewrite loop_calls_before_updates, enumerate_length.
    cbn [calls_before_updates Nat.add].
    change (S (List.length (chunks text))) with (1 + List.length (chunks text))%nat.
    rewrite Nat.add_comm, seq_app. reflexivity.
  - exact Hv.
Qed.

(** ** Runs evaluated *)

(** C3, counterexample.  Two runs over the same two segments, one losing
    segment 1 and the other segment 2, return the very same value, a bare
    text: nothing returned tells which segment was skipped.  And the
    surviving payload of a run may span two lines, although one segment
    of two survived. *)
Lemma skipped_indices_are_not_returned :
  let text := text_of_length 20001 in
  let lost_first := scripted [failure "timeout"; answer "x"] in
  let lost_second := scripted [answer "x"; failure "timeout"] in
  let two_lines := scripted [failure "timeout"; answer "p,1
q,2"] in
  len (chunks text) = 2
  /\ skipped (run_outcomes lost_first text []) = [1]
  /\ skipped (run_outcomes lost_second text []) = [2]
  /\ fst (extract_entities_relations lost_first text []) = inr (lit "x")
  /\ fst (extract_entities_relations lost_second text []) = inr (lit "x")
  /\ skipped (run_outcomes two_lines text []) = [1]
  /\ option_map line_count
       (match fst (extract_entities_relations two_lines text []) with
        | inr result => Some result
        | inl _ => None
        end) = Some 2.
Proof. vm_compute. repeat split; reflexivity. Qed.

(** C3 at the scenario of the 45,000 character text whose second call
    fails. *)
Lemma single_failure_is_reported_and_skipped_witness :
  fst (extract_entities_relations
         (scripted [answer "A,B,C,D"; failure "timeout"; answer "I,J,K,L"])
         (text_of_length 45000) [])
  = inr (lit "A,B,C,D
I,J,K,L").
Proof.
  apply (@single_failure_is_reported_and_skipped
           (scripted [answer "A,B,C,D"; failure "timeout"; answer "I,J,K,L"])
           (text_of_length 45000) []
           2 {| exn_type := ServiceError; exn_msg := lit "timeout" |}
           [(1, inr (lit "A,B,C,D"))] [(3, inr (lit "I,J,K,L"))]).
  - vm_compute. reflexivity.
  - reflexivity.
  - reflexivity.
Defined.

(** C5, counterexample.  One segment, one successful call, and a payload
    of two rows: the result has two lines for one segment, and the
    serializer reads two lines from it. *)
Lemma one_segment_may_give_two_lines :
  let text := lit "Asha holds PAN AAAPA1234A; Ravi of Acme holds BBBPB5678B." in
  let svc := scripted [answer "AAAPA1234A,PAN_Of,Asha,
BBBPB5678B,PAN_Of,Ravi,Acme"] in
  let result := lit "AAAPA1234A,PAN_Of,Asha,
BBBPB5678B,PAN_Of,Ravi,Acme" in
  len (chunks text) = 1
  /\ forallb succeeded (run_outcomes svc text []) = true
  /\ fst (extract_entities_relations svc text []) = inr result
  /\ line_count result = 2
  /\ len (csv_lines result) = 2.
Proof. vm_compute. repeat split; reflexivity. Qed.

(** C5 at the scenario of the 45,000 character text, three successful
    calls. *)
Lemma all_success_joins_every_payload_witness :
  fst (extract_entities_relations
         (scripted [answer "A,B,C,D"; answer "E,F,G,H"; answer "I,J,K,L"])
         (text_of_length 45000) [])
  = inr (lit "A,B,C,D
E,F,G,H
I,J,K,L").
Proof.
  assert (H : forallb succeeded
                (run_outcomes
                   (scripted [answer "A,B,C,D"; answer "E,F,G,H"; answer "I,J,K,L"])
                   (text_of_length 45000) []) = true)
    by (vm_compute; reflexivity).
  refine (eq_trans (proj1 (all_success_joins_every_payload _ _ _ H)) _).
  vm_compute. reflexivity.
Defined.

(** C6, counterexample.  On a text of one segment the trace of a run is
    the opening of the bar, the update for segment 1, the call for
    segment 1, the closing update: the update that reports segment 1 as
    1 of 1 is made when no call has been made yet. *)
Lemma progress_update_is_made_before_the_call :
  let text := lit "Asha holds PAN AAAPA1234A." in
  let svc := scripted [answer "AAAPA1234A,PAN_Of,Asha,"] in
  let new := emitted [] (snd (extract_entities_relations svc text [])) in
  new = [StProgress (Int 0) starting_text;
         ProgressUpdate (Float 1 1) (processing_text 1 1);
         ChatComplete MODEL_NAME (prompt_for 1 1 text);
         ProgressUpdate (Float 1 1) completed_text]
  /\ calls_before_updates 0 new = [0%nat; 1%nat].
Proof. vm_compute. split; reflexivity. Qed.

(** The scenario of the 45,000 character text: three segments of 20,000,
    20,000 and 5,000 characters. *)
Example chunks_of_45000 :
  map (@len char) (chunks (text_of_length 45000)) = [20000; 20000; 5000].
Proof. vm_compute. reflexivity. Qed.

(** ** UTF-8 *)

Module Utf8Facts.

Import Utf8.

(** A property checked on every integer below a bound holds below it. *)
Lemma forall_below (P : Z -> bool) (n : nat) :
  forallb P (map Z.of_nat (seq 0 n)) = true ->
  forall y, 0 <= y < Z.of_nat n -> P y = true.
Proof.
  intros H y Hy. rewrite forallb_forall in H. apply H.
  apply in_map_iff. exists (Z.to_nat y). split; [lia |].
  apply in_seq. lia.
Qed.

Lemma lor_80 y : 0 <= y < 64 -> Z.lor 0x80 y = 0x80 + y.
Proof.
  intros Hy. apply Z.eqb_eq.
  apply (forall_below (fun y => Z.lor 0x80 y =? 0x80 + y) 64); [reflexivity | lia].
Qed.

Lemma lor_C0 y : 0 <= y < 32 -> Z.lor 0xC0 y = 0xC0 + y.
Proof.
  intros Hy. apply Z.eqb_eq.
  apply (forall_below (fun y => Z.lor 0xC0 y =? 0xC0 + y) 32); [reflexivity | lia].
Qed.

Lemma lor_E0 y : 0 <= y < 16 -> Z.lor 0xE0 y = 0xE0 + y.
Proof.
  intros Hy. apply Z.eqb_eq.
  apply (forall_below (fun y => Z.lor 0xE0 y =? 0xE0 + y) 16); [reflexivity | lia].
Qed.

Lemma lor_F0 y : 0 <= y < 8 -> Z.lor 0xF0 y = 0xF0 + y.
Proof.
  intros Hy. apply Z.eqb_eq.
  apply (forall_below (fun y => Z.lor 0xF0 y =? 0xF0 + y) 8); [reflexivity | lia].
Qed.

(** The masks of the decoder, on the bytes they are applied to. *)
Lemma payload_cont b : 0x80 <= b < 0xC0 -> payload b = b - 0x80.
Proof.
  intros Hb. apply Z.eqb_eq.
  pose proof (@forall_below (fun b => if (0x80 <=? b) && (b <? 0xC0) then payload b =? b - 0x80 else true) 256 eq_refl b) as H.
  cbv beta in H. specialize (H ltac:(lia)).
  replace ((0x80 <=? b) && (b <? 0xC0)) with true in H by lia. exact H.
Qed.

Lemma mask_lead2 b : 0xC0 <= b < 0xE0 -> Z.land b 0x1F = b - 0xC0.
Proof.
  intros Hb. apply Z.eqb_eq.
  pose proof (@forall_below (fun b => if (0xC0 <=? b) && (b <? 0xE0) then Z.land b 0x1F =? b - 0xC0 else true) 256 eq_refl b) as H.
  cbv beta in H. specialize (H ltac:(lia)).
  replace ((0xC0 <=? b) && (b <? 0xE0)) with true in H by lia. exact H.
Qed.

Lemma mask_lead3 b : 0xE0 <= b < 0xF0 -> Z.land b 0x0F = b - 0xE0.
Proof.
  intros Hb. apply Z.eqb_eq.
  pose proof (@forall_below (fun b => if (0xE0 <=? b) && (b <? 0xF0) then Z.land b 0x0F =? b - 0xE0 else true) 256 eq_refl b) as H.
  cbv beta in H. specialize (H ltac:(lia)).
  replace ((0xE0 <=? b) && (b <? 0xF0)) with true in H by lia. exact H.
Qed.

Lemma mask_lead4 b : 0xF0 <= b < 0xF8 -> Z.land b 0x07 = b - 0xF0.
Proof.
  intros Hb. apply Z.eqb_eq.
  pose proof (@forall_below (fun b => if (0xF0 <=? b) && (b <? 0xF8) then Z.land b 0x07 =? b - 0xF0 else true) 256 eq_refl b) as H.
  cbv beta in H. specialize (H ltac:(lia)).
  replace ((0xF0 <=? b) && (b <? 0xF8)) with true in H by lia. exact H.
Qed.

(** Bits shifted above [k] and bits below [k] add up. *)
Lemma lor_shiftl_add (hi lo k : Z) :
  0 <= k -> 0 <= lo < 2 ^ k -> Z.lor (Z.shiftl hi k) lo = hi * 2 ^ k + lo.
Proof.
  intros Hk Hlo.
  assert (Hdisj : Z.land (Z.shiftl hi k) lo = 0).
  { apply Z.bits_inj'. intros n Hn. rewrite Z.land_spec, Z.bits_0.
    destruct (Z.lt_ge_cases n k) as [Hlt | Hge].
    - rewrite Z.shiftl_spec_low by assumption. reflexivity.
    - rewrite <- (Z.mod_small lo (2 ^ k)) by lia.
      rewrite Z.mod_pow2_bits_high by lia. apply andb_false_r. }
  pose proof (Z.add_lor_land (Z.shiftl hi k) lo) as Hadd.
  rewrite Hdisj, Z.shiftl_mul_pow2 in Hadd by assumption.
  rewrite Z.shiftl_mul_pow2 by assumption. lia.
Qed.

Lemma shiftr_div c k : 0 <= k -> Z.shiftr c k = c / 2 ^ k.
Proof. intros. apply Z.shiftr_div_pow2. assumption. Qed.

Lemma low6 c : Z.land c 0x3F = c mod 64.
Proof. change 0x3F with (Z.ones 6). rewrite Z.land_ones by lia. reflexivity. Qed.

(** The bytes of one code point, in arithmetic. *)
Lemma encode_char_arith (c : char) :
  is_code_point c = true -> is_surrogate c = false ->
  encode_char c
  = Some (if c <? 0x80 then [c]
          else if c <? 0x800 then [0xC0 + c / 64; 0x80 + c mod 64]
          else if c <? 0x10000 then
            [0xE0 + c / 4096; 0x80 + (c / 64) mod 64; 0x80 + c mod 64]
          else [0xF0 + c / 262144; 0x80 + (c / 4096) mod 64;
                0x80 + (c / 64) mod 64; 0x80 + c mod 64]).
Proof.
  unfold is_code_point. intros Hc Hs. unfold encode_char. rewrite Hs.
  apply andb_true_iff in Hc. destruct Hc as [H0 Hmax].
  apply Z.leb_le in H0, Hmax.
  rewrite !low6, !shiftr_div by lia.
  change (2 ^ 6) with 64. change (2 ^ 12) with 4096. change (2 ^ 18) with 262144.
  destruct (Z.ltb_spec c 0x80); [reflexivity |].
  destruct (Z.ltb_spec c 0x800).
  { rewrite lor_C0, lor_80; [reflexivity | |].
    - apply Z.mod_pos_bound. lia.
    - split; [apply Z.div_pos; lia | apply Z.div_lt_upper_bound; lia]. }
  destruct (Z.ltb_spec c 0x10000).
  { rewrite lor_E0, !lor_80; [reflexivity | | |].
    - apply Z.mod_pos_bound. lia.
    - apply Z.mod_pos_bound. lia.
    - split; [apply Z.div_pos; lia | apply Z.div_lt_upper_bound; lia]. }
  rewrite lor_F0, !lor_80; [reflexivity | | | |].
  - apply Z.mod_pos_bound. lia.
  - apply Z.mod_pos_bound. lia.
  - apply Z.mod_pos_bound. lia.
  - split; [apply Z.div_pos; lia | apply Z.div_lt_upper_bound; lia].
Qed.

(** The decoder on a well-formed sequence of one, two, three and four
    bytes. *)
Lemma decode_1 b rest :
  0 <= b < 0x80 -> decode (b :: rest) = option_map (cons b) (decode rest).
Proof.
  intros Hb. cbn [decode].
  replace ((0 <=? b) && (b <? 0x80)) with true by lia. reflexivity.
Qed.

Lemma decode_2 b0 b1 rest :
  0xC2 <= b0 <= 0xDF -> 0x80 <= b1 <= 0xBF ->
  decode (b0 :: b1 :: rest)
  = option_map (cons ((b0 - 0xC0) * 64 + (b1 - 0x80))) (decode rest).
Proof.
  intros H0 H1. cbn [decode]. unfold is_cont.
  replace ((0 <=? b0) && (b0 <? 0x80)) with false by lia.
  replace ((0xC2 <=? b0) && (b0 <=? 0xDF)) with true by lia.
  replace ((0x80 <=? b1) && (b1 <=? 0xBF)) with true by lia.
  rewrite mask_lead2, payload_cont by lia.
  rewrite lor_shiftl_add by (change (2 ^ 6) with 64; lia).
  reflexivity.
Qed.

Lemma decode_3 b0 b1 b2 rest :
  0xE0 <= b0 <= 0xEF -> 0x80 <= b1 <= 0xBF -> 0x80 <= b2 <= 0xBF ->
  let c := (b0 - 0xE0) * 4096 + (b1 - 0x80) * 64 + (b2 - 0x80) in
  0x800 <= c -> is_surrogate c = false ->
  decode (b0 :: b1 :: b2 :: rest) = option_map (cons c) (decode rest).
Proof.
  intros H0 H1 H2 c Hc Hs. cbn [decode]. unfold is_cont. cbv zeta.
  replace ((0 <=? b0) && (b0 <? 0x80)) with false by lia.
  replace ((0xC2 <=? b0) && (b0 <=? 0xDF)) with false by lia.
  replace ((0xE0 <=? b0) && (b0 <=? 0xEF)) with true by lia.
  replace ((0x80 <=? b1) && (b1 <=? 0xBF)) with true by lia.
  replace ((0x80 <=? b2) && (b2 <=? 0xBF)) with true by lia.
  rewrite mask_lead3, !payload_cont by lia.
  rewrite (@lor_shiftl_add (b1 - 0x80) (b2 - 0x80) 6)
    by (change (2 ^ 6) with 64; lia).
  rewrite lor_shiftl_add
    by (change (2 ^ 6) with 64; change (2 ^ 12) with 4096; lia).
  change (2 ^ 6) with 64. change (2 ^ 12) with 4096.
  replace ((b0 - 0xE0) * 4096 + ((b1 - 0x80) * 64 + (b2 - 0x80))) with c
    by (subst c; lia).
  rewrite Hs. replace (0x800 <=? c) with true by lia. reflexivity.
Qed.

Lemma decode_4 b0 b1 b2 b3 rest :
  0xF0 <= b0 <= 0xF4 ->
  0x80 <= b1 <= 0xBF -> 0x80 <= b2 <= 0xBF -> 0x80 <= b3 <= 0xBF ->
  let c := (b0 - 0xF0) * 262144 + (b1 - 0x80) * 4096
           + (b2 - 0x80) * 64 + (b3 - 0x80) in
  0x10000 <= c <= 0x10FFFF ->
  decode (b0 :: b1 :: b2 :: b3 :: rest) = option_map (cons c) (decode rest).
Proof.
  intros H0 H1 H2 H3 c Hc. cbn [decode]. unfold is_cont. cbv zeta.
  replace ((0 <=? b0) && (b0 <? 0x80)) with false by lia.
  replace ((0xC2 <=? b0) && (b0 <=? 0xDF)) with false by lia.
  replace ((0xE0 <=? b0) && (b0 <=? 0xEF)) with false by lia.
  replace ((0xF0 <=? b0) && (b0 <=? 0xF4)) with true by lia.
  replace ((0x80 <=? b1) && (b1 <=? 0xBF)) with true by lia.
  replace ((0x80 <=? b2) && (b2 <=? 0xBF)) with true by lia.
  replace ((0x80 <=? b3) && (b3 <=? 0xBF)) with true by lia.
  rewrite mask_lead4, !payload_cont by lia.
  rewrite (@lor_shiftl_add (b2 - 0x80) (b3 - 0x80) 6)
    by (change (2 ^ 6) with 64; lia).
  rewrite (@lor_shiftl_add (b1 - 0x80) _ 12)
    by (change (2 ^ 6) with 64; change (2 ^ 12) with 4096; lia).
  rewrite lor_shiftl_add
    by (change (2 ^ 6) with 64; change (2 ^ 12) with 4096;
        change (2 ^ 18) with 262144; lia).
  change (2 ^ 6) with 64. change (2 ^ 12) with 4096. change (2 ^ 18) with 262144.
  replace ((b0 - 0xF0) * 262144 + ((b1 - 0x80) * 4096 + ((b2 - 0x80) * 64 + (b3 - 0x80))))
    with c by (subst c; lia).
  replace (0x10000 <=? c) with true by lia.
  replace (c <=? 0x10FFFF) with true by lia.
  reflexivity.
Qed.

(** One code point: its bytes are bytes, and the decoder reads the code
    point back from them. *)
Lemma decode_encode_char (c : char) (rest : list Z) :
  is_code_point c = true -> is_surrogate c = false ->
  exists bs, encode_char c = Some bs
             /\ forallb is_byte bs = true
             /\ decode (bs ++ rest) = option_map (cons c) (decode rest).
Proof.
  intros Hc Hs. rewrite (encode_char_arith c Hc Hs).
  eexists. split; [reflexivity |].
  unfold is_code_point in Hc. apply andb_true_iff in Hc. destruct Hc as [H0 Hmax].
  apply Z.leb_le in H0, Hmax.
  assert (Hsur : ~ (0xD800 <= c <= 0xDFFF)).
  { unfold is_surrogate in Hs. apply andb_false_iff in Hs.
    destruct Hs as [H | H]; [apply Z.leb_gt in H | apply Z.leb_gt in H]; lia. }
  destruct (Z.ltb_spec c 0x80).
  { split; [unfold is_byte; cbn [forallb]; lia |].
    apply decode_1. lia. }
  destruct (Z.ltb_spec c 0x800).
  { split; [unfold is_byte; cbn [forallb]; dlia |].
    cbn [app]. rewrite decode_2 by dlia. do 2 f_equal. dlia. }
  destruct (Z.ltb_spec c 0x10000).
  { split; [unfold is_byte; cbn [forallb]; dlia |].
    cbn [app].
    rewrite decode_3; [do 2 f_equal; dlia | dlia | dlia | dlia | dlia |].
    replace ((0xE0 + c / 4096 - 0xE0) * 4096 + (0x80 + (c / 64) mod 64 - 0x80) * 64
             + (0x80 + c mod 64 - 0x80)) with c by dlia.
    exact Hs. }
  split; [unfold is_byte; cbn [forallb]; dlia |].
  cbn [app].
  rewrite decode_4; [do 2 f_equal; dlia | dlia | dlia | dlia | dlia | dlia].
Qed.

(** Strings without surrogates are encoded, and the bytes decode back. *)
Lemma encode_from_total (s : str) : forall pos,
  well_formed s = true -> existsb is_surrogate s = false ->
  exists bytes, encode_from pos s = inr bytes
                /\ forallb is_byte bytes = true
                /\ decode bytes = Some s.
Proof.
  induction s as [| c r IH]; intros pos Hwf Hs.
  - exists []. repeat split.
  - cbn [well_formed forallb] in Hwf. apply andb_true_iff in Hwf.
    destruct Hwf as [Hc Hr].
    cbn [existsb] in Hs. apply orb_false_iff in Hs. destruct Hs as [Hsc Hsr].
    destruct (IH (pos + 1) Hr Hsr) as (rest & Hrest & Hbytes & Hdec).
    destruct (decode_encode_char c rest Hc Hsc) as (bs & Hbs & Hb & Hd).
    exists (bs ++ rest). cbn [encode_from]. rewrite Hbs, Hrest.
    split; [reflexivity |]. split.
    + rewrite forallb_app, Hb, Hbytes. reflexivity.
    + rewrite Hd, Hdec. reflexivity.
Qed.

(** A surrogate stops the encoder. *)
Lemma encode_from_surrogate (s : str) : forall pos,
  well_formed s = true -> existsb is_surrogate s = true ->
  exists p, encode_from pos s = inl p.
Proof.
  induction s as [| c r IH]; intros pos Hwf Hs; [discriminate Hs |].
  cbn [well_formed forallb] in Hwf. apply andb_true_iff in Hwf.
  destruct Hwf as [Hc Hr]. cbn [encode_from].
  destruct (encode_char c) as [bs |] eqn:Hbs; [| eexists; reflexivity].
  cbn [existsb] in Hs. destruct (is_surrogate c) eqn:Hsc.
  - exfalso. unfold encode_char in Hbs. rewrite Hsc in Hbs.
    unfold is_surrogate in Hsc. apply andb_true_iff in Hsc.
    destruct Hsc as [Hlo Hhi]. apply Z.leb_le in Hlo, Hhi.
    replace (c <? 0x80) with false in Hbs by lia.
    replace (c <? 0x800) with false in Hbs by lia.
    replace (c <? 0x10000) with true in Hbs by lia.
    discriminate Hbs.
  - cbn [orb] in Hs. destruct (IH (pos + 1) Hr Hs) as [p Hp].
    rewrite Hp. eexists; reflexivity.
Qed.

End Utf8Facts.

(** ** What the serializer lets through

    The characters of the output are characters of the input, or the
    comma, the quote and the line terminator that the writer adds. *)

Section Preserved.

Variable Q : char -> Prop.

Lemma dropwhile_Forall (A : Type) (R : A -> Prop) (p : A -> bool) (s : list A) :
  Forall R s -> Forall R (dropwhile p s).
Proof.
  induction 1 as [| c r Hc Hr IH]; simpl; [constructor |].
  destruct (p c); [exact IH | constructor; assumption].
Qed.

Lemma strip_Forall (s : str) : Forall Q s -> Forall Q (strip s).
Proof.
  intros H. unfold strip, rstrip, lstrip.
  apply Forall_rev, dropwhile_Forall, Forall_rev, dropwhile_Forall, H.
Qed.

Lemma split_Forall (sep : char) (s : str) :
  Forall Q s -> Forall (Forall Q) (split sep s).
Proof.
  induction 1 as [| c r Hc Hr IH]; cbn [split].
  - repeat constructor.
  - destruct (c =? sep); [constructor; [constructor | exact IH] |].
    destruct (split sep r) as [| w ws]; [repeat constructor; assumption |].
    inversion IH; subst. constructor; [constructor |]; assumption.
Qed.

Lemma csv_row_Forall (line : str) : Forall Q line -> Forall (Forall Q) (csv_row line).
Proof.
  intros H. unfold csv_row. apply Forall_map.
  eapply Forall_impl; [| apply split_Forall, H].
  intros f. apply strip_Forall.
Qed.

Hypothesis Q_comma : Q COMMA.
Hypothesis Q_quote : Q DQUOTE.

Lemma field_data_Forall (f : str) : Forall Q f -> Forall Q (Csv.field_data f).
Proof.
  induction 1 as [| c r Hc Hr IH]; cbn [Csv.field_data]; [constructor |].
  destruct (c =? Csv.quotechar); repeat constructor; assumption.
Qed.

Lemma join_append_Forall (st : Csv.record_state) (f : str) (quoted : bool) :
  Forall Q (Csv.rec st) -> Forall Q f ->
  Forall Q (Csv.rec (Csv.join_append st f quoted)).
Proof.
  intros Hst Hf. unfold Csv.join_append. cbn [Csv.rec].
  repeat (apply Forall_app; split); try assumption.
  - destruct (0 <? Csv.num_fields st); repeat constructor; assumption.
  - destruct (quoted || existsb Csv.special f); repeat constructor; assumption.
  - apply field_data_Forall; assumption.
  - destruct (quoted || existsb Csv.special f); repeat constructor; assumption.
Qed.

Lemma join_row_Forall (row : list str) :
  Forall (Forall Q) row -> Forall Q (Csv.join_row row).
Proof.
  intros Hrow. unfold Csv.join_row.
  assert (Hfold : forall st, Forall Q (Csv.rec st) ->
            Forall Q (Csv.rec (fold_left (fun st field => Csv.join_append st field false)
                                         row st))).
  { induction Hrow as [| f r Hf Hr IH]; intros st Hst; [exact Hst |].
    cbn [fold_left]. apply IH, join_append_Forall; assumption. }
  set (st := fold_left _ row _).
  assert (Hst : Forall Q (Csv.rec st)) by (apply Hfold; constructor).
  destruct ((0 <? Csv.num_fields st) && (len (Csv.rec st) =? 0)); [| exact Hst].
  apply join_append_Forall; [exact Hst | constructor].
Qed.

Hypothesis Q_cr : Q CR.
Hypothesis Q_lf : Q LF.

Lemma writerow_Forall (row : list str) :
  Forall (Forall Q) row -> Forall Q (Csv.writerow row).
Proof.
  intros Hrow. unfold Csv.writerow. apply Forall_app.
  split; [apply join_row_Forall, Hrow | repeat constructor; assumption].
Qed.

Lemma csv_output_Forall (s : str) : Forall Q s -> Forall Q (csv_output s).
Proof.
  intros H. unfold csv_output.
  assert (Hlines : Forall (Forall Q) (csv_lines s))
    by (apply split_Forall, strip_Forall, H).
  assert (Hfold : forall out, Forall Q out ->
            Forall Q (fold_left (fun output line => output ++ Csv.writerow (csv_row line))
                                (csv_lines s) out)).
  { induction Hlines as [| l r Hl Hr IH]; intros out Hout; [exact Hout |].
    cbn [fold_left]. apply IH, Forall_app. split; [exact Hout |].
    apply writerow_Forall, csv_row_Forall, Hl. }
  apply Hfold. constructor.
Qed.

End Preserved.

Lemma encodable_Forall (s : str) :
  Forall encodable s <-> well_formed s = true /\ existsb is_surrogate s = false.
Proof.
  unfold encodable. induction s as [| c r IH]; cbn [well_formed forallb existsb].
  - split; [intros _; split; reflexivity | constructor].
  - rewrite andb_true_iff, orb_false_iff. fold (well_formed r). split.
    + intros H. inversion H as [| ? ? [Hc Hs] Hr]; subst.
      apply IH in Hr. tauto.
    + intros [[Hc Hr] [Hs Hsr]]. constructor; [tauto | apply IH; tauto].
Qed.

(** C10, as the code has it.  On every string free of surrogate code
    points, whatever its quotes, blank lines and field counts,
    [convert_to_csv] raises nothing and returns bytes that are the UTF-8
    encoding of the table text: the strict decoder reads the text back. *)
Theorem convert_to_csv_total_without_surrogates (s : str) (tr : trace) :
  well_formed s = true ->
  existsb is_surrogate s = false ->
  exists bytes : list Z,
    convert_to_csv s tr = (inr bytes, tr)
    /\ forallb Utf8.is_byte bytes = true
    /\ Utf8.decode bytes = Some (csv_output s).
Proof.
  intros Hwf Hs.
  assert (Hout : Forall encodable (csv_output s)).
  { apply csv_output_Forall; try (split; reflexivity).
    apply encodable_Forall. split; assumption. }
  apply encodable_Forall in Hout. destruct Hout as [Hwf' Hs'].
  destruct (Utf8Facts.encode_from_total (csv_output s) 0 Hwf' Hs')
    as (bytes & Henc & Hbytes & Hdec).
  exists bytes. unfold convert_to_csv, Utf8.encode. rewrite Henc.
  repeat split; assumption.
Qed.

(** C10 at a text with padded fields, a quoted field, an interior and a
    trailing blank line. *)
Lemma convert_to_csv_total_without_surrogates_witness :
  exists bytes : list Z,
    convert_to_csv
      (lit "AAAPA1234A, PAN_Of ,Asha,
x," ++ [DQUOTE] ++ lit "y" ++ [DQUOTE] ++ lit ",

") [] = (inr bytes, [])
    /\ forallb Utf8.is_byte bytes = true
    /\ Utf8.decode bytes
       = Some (lit "AAAPA1234A,PAN_Of,Asha," ++ [CR; LF]
                 ++ lit "x," ++ [DQUOTE; DQUOTE; DQUOTE] ++ lit "y"
                 ++ [DQUOTE; DQUOTE; DQUOTE] ++ lit "," ++ [CR; LF]).
Proof.
  refine (@convert_to_csv_total_without_surrogates _ [] _ _); reflexivity.
Defined.

(** C10, counterexample.  A string that holds a lone surrogate, as a
    Python [str] may, is refused by the encoder: [convert_to_csv] raises
    UnicodeEncodeError at the position of the surrogate in the table
    text. *)
Lemma convert_to_csv_raises_on_surrogate :
  let s := lit "AAAPA1234A,PAN_Of," ++ [0xD83D] in
  well_formed s = true
  /\ csv_output s = lit "AAAPA1234A,PAN_Of," ++ [0xD83D; CR; LF]
  /\ convert_to_csv s []
     = (inl {| exn_type := UnicodeEncodeError 18;
               exn_msg := lit "surrogates not allowed" |}, []).
Proof. vm_compute. repeat split; reflexivity. Qed.

(** C7 on the code.  A text of length zero gives no segment, no call and
    an empty result; serializing the empty result writes one row, made of
    one empty quoted field, and not an empty table. *)
Theorem empty_result_serializes_to_one_row (complete : service) :
  chunks [] = []
  /\ extract_entities_relations complete [] []
     = (inr [], [StProgress (Int 0) starting_text;
                 ProgressUpdate (Float 1 1) completed_text])
  /\ csv_lines [] = [[]]
  /\ csv_rows [] = [[[]]]
  /\ csv_output [] = [DQUOTE; DQUOTE; CR; LF]
  /\ convert_to_csv [] [] = (inr [0x22; 0x22; 0x0D; 0x0A], []).
Proof. repeat split. Qed.

(** ** Trimming, splitting and joining *)

Section Trim.

Lemma blank_app (a b : str) : blank (a ++ b) = blank a && blank b.
Proof. apply forallb_app. Qed.

Lemma blank_rev (s : str) : blank (rev s) = blank s.
Proof.
  induction s as [| c r IH]; [reflexivity |].
  cbn [rev]. rewrite blank_app, IH. cbn [blank forallb].
  rewrite andb_true_r. apply andb_comm.
Qed.

Lemma lstrip_blank (s : str) : blank s = true -> lstrip s = [].
Proof.
  induction s as [| c r IH]; intros H; [reflexivity |].
  cbn [blank forallb] in H. apply andb_true_iff in H. destruct H as [Hc Hr].
  unfold lstrip. cbn [dropwhile]. rewrite Hc. apply IH, Hr.
Qed.

Lemma lstrip_app (a b : str) :
  lstrip (a ++ b) = if blank a then lstrip b else lstrip a ++ b.
Proof.
  induction a as [| c r IH]; [reflexivity |].
  unfold lstrip in *. cbn [app dropwhile blank forallb].
  destruct (isspace c); [exact IH | reflexivity].
Qed.

Lemma rstrip_app (a b : str) :
  rstrip (a ++ b) = if blank b then rstrip a else a ++ rstrip b.
Proof.
  unfold rstrip. fold (lstrip (rev (a ++ b))).
  rewrite rev_app_distr, lstrip_app, blank_rev.
  destruct (blank b); [reflexivity |].
  rewrite rev_app_distr, rev_involutive. reflexivity.
Qed.

Lemma rstrip_blank (s : str) : blank s = true -> rstrip s = [].
Proof.
  intros H. unfold rstrip. fold (lstrip (rev s)).
  rewrite lstrip_blank by (rewrite blank_rev; exact H). reflexivity.
Qed.

Lemma lstrip_idem (s : str) : lstrip (lstrip s) = lstrip s.
Proof.
  induction s as [| c r IH]; [reflexivity |].
  unfold lstrip in *. cbn [dropwhile].
  destruct (isspace c) eqn:Hc; [exact IH |].
  cbn [dropwhile]. rewrite Hc. reflexivity.
Qed.

Lemma rstrip_idem (s : str) : rstrip (rstrip s) = rstrip s.
Proof.
  unfold rstrip. rewrite rev_involutive.
  fold (lstrip (rev s)). fold (lstrip (lstrip (rev s))).
  rewrite lstrip_idem. reflexivity.
Qed.

Lemma rstrip_cons (c : char) (r : str) :
  rstrip (c :: r)
  = if blank r then (if isspace c then [] else [c]) else c :: rstrip r.
Proof.
  change (c :: r) with ([c] ++ r). rewrite rstrip_app.
  destruct (blank r); [| reflexivity].
  unfold rstrip. cbn [rev app dropwhile]. destruct (isspace c); reflexivity.
Qed.

Lemma lstrip_rstrip (s : str) : lstrip (rstrip s) = rstrip (lstrip s).
Proof.
  induction s as [| c r IH]; [reflexivity |].
  rewrite rstrip_cons. unfold lstrip at 2. cbn [dropwhile]. fold (lstrip r).
  destruct (isspace c) eqn:Hc.
  - destruct (blank r) eqn:Hr.
    + rewrite (lstrip_blank r Hr). reflexivity.
    + unfold lstrip at 1. cbn [dropwhile]. rewrite Hc. exact IH.
  - rewrite rstrip_cons.
    destruct (blank r); unfold lstrip; cbn [dropwhile]; rewrite Hc; reflexivity.
Qed.

Lemma strip_lstrip (s : str) : strip (lstrip s) = strip s.
Proof. unfold strip. rewrite lstrip_idem. reflexivity. Qed.

Lemma strip_rstrip (s : str) : strip (rstrip s) = strip s.
Proof. unfold strip. rewrite lstrip_rstrip, rstrip_idem. reflexivity. Qed.

Lemma strip_idem (s : str) : strip (strip s) = strip s.
Proof. unfold strip at 2. rewrite strip_rstrip, strip_lstrip. reflexivity. Qed.

Lemma blank_lstrip (s : str) : blank (lstrip s) = blank s.
Proof.
  induction s as [| c r IH]; [reflexivity |].
  unfold lstrip in *. cbn [dropwhile blank forallb].
  destruct (isspace c) eqn:Hc; [exact IH |].
  cbn [blank forallb]. rewrite Hc. reflexivity.
Qed.

End Trim.

Section SplitJoin.

Variable sep : char.

Lemma join_cons (x : str) (xs : list str) :
  xs <> [] -> join [sep] (x :: xs) = x ++ sep :: join [sep] xs.
Proof. destruct xs; [congruence | reflexivity]. Qed.

Lemma split_nonempty (s : str) : split sep s <> [].
Proof.
  induction s as [| c r IH]; cbn [split]; [discriminate |].
  destruct (c =? sep); [discriminate |].
  destruct (split sep r); discriminate.
Qed.

Lemma join_split (s : str) : join [sep] (split sep s) = s.
Proof.
  induction s as [| c r IH]; [reflexivity |].
  cbn [split]. destruct (Z.eqb_spec c sep) as [-> | Hne].
  - rewrite join_cons by apply split_nonempty. rewrite IH. reflexivity.
  - pose proof (split_nonempty r) as Hn.
    destruct (split sep r) as [| w ws]; [congruence |].
    destruct ws as [| w' ws'].
    + cbn [join] in *. congruence.
    + rewrite join_cons in * by discriminate.
      cbn [app]. congruence.
Qed.

Lemma split_sep_free (s : str) : forallb (sep_free sep) (split sep s) = true.
Proof.
  induction s as [| c r IH]; [reflexivity |].
  cbn [split]. destruct (Z.eqb_spec c sep) as [-> | Hne].
  - cbn [forallb]. exact IH.
  - destruct (split sep r) as [| w ws]; cbn [forallb] in *.
    + unfold sep_free. cbn [existsb]. replace (sep =? c) with false by lia.
      reflexivity.
    + apply andb_true_iff in IH. destruct IH as [Hw Hws].
      rewrite Hws, andb_true_r. unfold sep_free in *. cbn [existsb].
      replace (sep =? c) with false by lia. exact Hw.
Qed.

Lemma join_app (a b : list str) :
  a <> [] -> b <> [] ->
  join [sep] (a ++ b) = join [sep] a ++ sep :: join [sep] b.
Proof.
  intros Ha Hb. induction a as [| x r IH]; [congruence |].
  destruct r as [| y r'].
  - cbn [app]. rewrite join_cons by exact Hb. reflexivity.
  - change ((x :: y :: r') ++ b) with (x :: ((y :: r') ++ b)).
    rewrite join_cons by discriminate.
    rewrite IH by discriminate.
    rewrite (join_cons x (xs := y :: r')) by discriminate.
    rewrite <- app_assoc. reflexivity.
Qed.

Lemma rev_join (ls : list str) :
  rev (join [sep] ls) = join [sep] (map (@rev char) (rev ls)).
Proof.
  induction ls as [| l r IH]; [reflexivity |].
  destruct r as [| y r'].
  - reflexivity.
  - rewrite join_cons by discriminate.
    rewrite rev_app_distr. cbn [rev]. rewrite IH, <- app_assoc. cbn [app].
    change (rev (l :: y :: r')) with (rev (y :: r') ++ [l]).
    rewrite map_app. cbn [map].
    rewrite join_app; [reflexivity | | discriminate].
    cbn [rev]. destruct (rev r'); discriminate.
Qed.

Lemma existsb_rev (A : Type) (p : A -> bool) (l : list A) :
  existsb p (rev l) = existsb p l.
Proof.
  induction l as [| x r IH]; [reflexivity |].
  cbn [rev existsb]. rewrite existsb_app, IH. cbn [existsb].
  rewrite orb_false_r. apply orb_comm.
Qed.

Lemma sep_free_rev (x : str) : sep_free sep (rev x) = sep_free sep x.
Proof. unfold sep_free. rewrite existsb_rev. reflexivity. Qed.

Lemma forallb_rev (A : Type) (p : A -> bool) (l : list A) :
  forallb p (rev l) = forallb p l.
Proof.
  induction l as [| x r IH]; [reflexivity |].
  cbn [rev forallb]. rewrite forallb_app, IH. cbn [forallb].
  rewrite andb_true_r. apply andb_comm.
Qed.

Lemma forallb_map_comp (A B : Type) (p : B -> bool) (f : A -> B) (l : list A) :
  forallb p (map f l) = forallb (fun x => p (f x)) l.
Proof. induction l as [| x r IH]; [reflexivity |]. cbn. rewrite IH. reflexivity. Qed.

Lemma forallb_pointwise (A : Type) (p q : A -> bool) (l : list A) :
  (forall x, p x = q x) -> forallb p l = forallb q l.
Proof.
  intros H. induction l as [| x r IH]; [reflexivity |].
  cbn. rewrite H, IH. reflexivity.
Qed.

End SplitJoin.

(** Splitting the reversed text gives the reversed pieces in reverse. *)
Lemma split_rev (sep : char) (s : str) :
  split sep (rev s) = map (@rev char) (rev (split sep s)).
Proof.
  rewrite <- (join_split sep s) at 1. rewrite rev_join.
  apply split_join.
  - pose proof (split_nonempty sep s) as Hn.
    destruct (split sep s) as [| w ws]; [congruence |].
    cbn [rev]. rewrite map_app. cbn [map].
    intros H. apply app_eq_nil in H. destruct H as [_ H]. discriminate H.
  - rewrite forallb_map_comp, forallb_rev.
    rewrite <- (split_sep_free sep s). apply forallb_pointwise.
    intros x. apply (sep_free_rev sep x).
Qed.

(** ** Trimming a text and its lines *)

Section TrimLines.

Lemma dropwhile_app (A : Type) (p : A -> bool) (u v : list A) :
  dropwhile p (u ++ v)
  = if forallb p u then dropwhile p v else dropwhile p u ++ v.
Proof.
  induction u as [| x r IH]; [reflexivity |].
  cbn [app dropwhile forallb]. destruct (p x); [exact IH | reflexivity].
Qed.

Lemma dropwhile_all (A : Type) (p : A -> bool) (u : list A) :
  forallb p u = true -> dropwhile p u = [].
Proof.
  induction u as [| x r IH]; [reflexivity |].
  cbn [dropwhile forallb]. destruct (p x); [exact IH | discriminate].
Qed.

Lemma drop_trailing_cons (p : str -> bool) (a : str) (r : list str) :
  drop_trailing p (a :: r)
  = if forallb p r then (if p a then [] else [a]) else a :: drop_trailing p r.
Proof.
  unfold drop_trailing. cbn [rev]. rewrite dropwhile_app, forallb_rev.
  destruct (forallb p r).
  - cbn [dropwhile]. destruct (p a); reflexivity.
  - rewrite rev_app_distr. reflexivity.
Qed.

Lemma drop_trailing_lstrip_head (ls : list str) :
  drop_trailing blank (lstrip_head ls) = lstrip_head (drop_trailing blank ls).
Proof.
  destruct ls as [| x r]; [reflexivity |].
  cbn [lstrip_head]. rewrite !drop_trailing_cons, blank_lstrip.
  destruct (forallb blank r); [destruct (blank x) |]; reflexivity.
Qed.

Lemma dropwhile_blank_map_rev (ls : list str) :
  dropwhile blank (map (@rev char) ls) = map (@rev char) (dropwhile blank ls).
Proof.
  induction ls as [| l r IH]; [reflexivity |].
  cbn [map dropwhile]. rewrite blank_rev.
  destruct (blank l); [exact IH | reflexivity].
Qed.

Lemma map_rev_rev (ls : list str) :
  map (@rev char) (rev (map (@rev char) ls)) = rev ls.
Proof.
  rewrite <- map_rev, map_map.
  rewrite (map_ext _ (fun x => x)) by apply rev_involutive.
  apply map_id.
Qed.

(** Trimming the head of the mirrored pieces trims the last piece. *)
Lemma rstrip_last_mirror (ls : list str) :
  map (@rev char) (rev (lstrip_head (map (@rev char) (rev ls)))) = rstrip_last ls.
Proof.
  unfold rstrip_last. destruct (rev ls) as [| y r]; [reflexivity |].
  cbn [map lstrip_head rev]. rewrite map_app, map_rev_rev. reflexivity.
Qed.

Lemma map_lstrip_head (B : Type) (g : str -> B) (ls : list str) :
  (forall y, g (lstrip y) = g y) -> map g (lstrip_head ls) = map g ls.
Proof.
  intros Hg. destruct ls as [| l r]; [reflexivity |].
  cbn [lstrip_head map]. rewrite Hg. reflexivity.
Qed.

Lemma map_rstrip_last (B : Type) (g : str -> B) (ls : list str) :
  (forall y, g (rstrip y) = g y) -> map g (rstrip_last ls) = map g ls.
Proof.
  intros Hg. unfold rstrip_last.
  rewrite <- (rev_involutive ls) at 2.
  destruct (rev ls) as [| y r]; [reflexivity |].
  cbn [rev]. rewrite !map_app. cbn [map]. rewrite Hg. reflexivity.
Qed.

Variable sep : char.

(** A separator that is no white space: trimming the text trims its
    first and last pieces. *)
Lemma split_lstrip (s : str) :
  isspace sep = false -> split sep (lstrip s) = lstrip_head (split sep s).
Proof.
  intros Hsep. induction s as [| c r IH]; [reflexivity |].
  unfold lstrip in *. cbn [dropwhile split].
  destruct (isspace c) eqn:Hc.
  - destruct (Z.eqb_spec c sep) as [-> | Hne]; [congruence |].
    rewrite IH. pose proof (split_nonempty sep r) as Hn.
    destruct (split sep r) as [| w ws]; [congruence |].
    cbn [lstrip_head]. unfold lstrip. cbn [dropwhile]. rewrite Hc. reflexivity.
  - cbn [split]. destruct (c =? sep); [reflexivity |].
    destruct (split sep r) as [| w ws];
      cbn [lstrip_head]; unfold lstrip; cbn [dropwhile]; rewrite Hc; reflexivity.
Qed.

Lemma split_rstrip (s : str) :
  isspace sep = false -> split sep (rstrip s) = rstrip_last (split sep s).
Proof.
  intros Hsep. unfold rstrip. fold (lstrip (rev s)).
  rewrite split_rev, split_lstrip, split_rev by exact Hsep.
  apply rstrip_last_mirror.
Qed.

(** A separator that is white space: trimming the text also drops the
    blank pieces at that end. *)
Lemma split_lstrip_ws (s : str) :
  isspace sep = true -> blank s = false ->
  split sep (lstrip s) = lstrip_head (dropwhile blank (split sep s)).
Proof.
  intros Hsep. induction s as [| c r IH]; intros Hs; [discriminate Hs |].
  cbn [blank forallb] in Hs. unfold lstrip in *. cbn [dropwhile].
  destruct (isspace c) eqn:Hc.
  - cbn [andb] in Hs. rewrite (IH Hs). cbn [split].
    destruct (Z.eqb_spec c sep) as [-> | Hne]; [reflexivity |].
    pose proof (split_nonempty sep r) as Hn.
    destruct (split sep r) as [| w ws]; [congruence |].
    cbn [dropwhile blank forallb]. rewrite Hc. cbn [andb].
    fold (blank w). destruct (blank w); [reflexivity |].
    cbn [lstrip_head]. unfold lstrip. cbn [dropwhile]. rewrite Hc. reflexivity.
  - cbn [split]. destruct (Z.eqb_spec c sep) as [-> | Hne]; [congruence |].
    destruct (split sep r) as [| w ws];
      cbn [dropwhile blank forallb]; rewrite Hc;
      cbn [andb lstrip_head]; unfold lstrip; cbn [dropwhile]; rewrite Hc;
      reflexivity.
Qed.

Lemma split_rstrip_ws (s : str) :
  isspace sep = true -> blank s = false ->
  split sep (rstrip s) = rstrip_last (drop_trailing blank (split sep s)).
Proof.
  intros Hsep Hs. unfold rstrip. fold (lstrip (rev s)).
  rewrite split_rev, split_lstrip_ws, split_rev
    by (try rewrite blank_rev; assumption).
  rewrite dropwhile_blank_map_rev.
  rewrite <- (rev_involutive (dropwhile blank (rev (split sep s)))).
  apply rstrip_last_mirror.
Qed.

End TrimLines.

(** Trimming a line does not change its row. *)
Lemma csv_row_lstrip (line : str) : csv_row (lstrip line) = csv_row line.
Proof.
  unfold csv_row. rewrite split_lstrip by reflexivity.
  apply map_lstrip_head, strip_lstrip.
Qed.

Lemma csv_row_rstrip (line : str) : csv_row (rstrip line) = csv_row line.
Proof.
  unfold csv_row. rewrite split_rstrip by reflexivity.
  apply map_rstrip_last, strip_rstrip.
Qed.

(** The rows of a text that is not all white space are the rows of its
    lines, the blank lines at both ends left out. *)
Lemma csv_rows_trim_blank_lines (s : str) :
  blank s = false ->
  csv_rows s = map csv_row (trim_blank_lines (split LF s)).
Proof.
  intros Hs. unfold csv_rows, csv_lines, strip, trim_blank_lines.
  rewrite split_rstrip_ws by (try rewrite blank_lstrip; trivial).
  rewrite map_rstrip_last by apply csv_row_rstrip.
  rewrite split_lstrip_ws by trivial.
  rewrite drop_trailing_lstrip_head.
  apply map_lstrip_head, csv_row_lstrip.
Qed.

(** ** One row per line *)

Lemma fold_left_concat (A : Type) (f : A -> str) (l : list A) : forall acc : str,
  fold_left (fun output x => output ++ f x) l acc = acc ++ concat (map f l).
Proof.
  induction l as [| x r IH]; intros acc; cbn [fold_left map concat].
  - symmetry. apply app_nil_r.
  - rewrite IH, app_assoc. reflexivity.
Qed.

Lemma csv_output_rows (s : str) :
  csv_output s = concat (map Csv.writerow (csv_rows s)).
Proof.
  unfold csv_output, csv_rows. rewrite fold_left_concat, map_map. reflexivity.
Qed.

Lemma count_app (c : char) (a b : str) : count c (a ++ b) = count c a + count c b.
Proof. unfold count. rewrite filter_app. apply len_app. Qed.

Lemma count_absent (c : char) (s : str) :
  Forall (fun x => x <> c) s -> count c s = 0.
Proof.
  induction 1 as [| x r Hx Hr IH]; [reflexivity |].
  unfold count in *. cbn [filter]. replace (c =? x) with false by lia. exact IH.
Qed.

Lemma sep_free_Forall (sep : char) (x : str) :
  sep_free sep x = true <-> Forall (fun c => c <> sep) x.
Proof.
  unfold sep_free. induction x as [| c r IH]; cbn [existsb].
  - split; [constructor | reflexivity].
  - rewrite negb_orb, andb_true_iff, IH. split.
    + intros [Hc Hr]. constructor; [| exact Hr].
      apply negb_true_iff, Z.eqb_neq in Hc. congruence.
    + intros H. inversion H as [| ? ? Hc Hr]; subst. split; [| exact Hr].
      apply negb_true_iff, Z.eqb_neq. congruence.
Qed.

Lemma split_pieces_free (sep : char) (s : str) :
  Forall (Forall (fun c => c <> sep)) (split sep s).
Proof.
  apply Forall_forall. intros x Hx. apply sep_free_Forall.
  pose proof (split_sep_free sep s) as H. rewrite forallb_forall in H.
  apply H, Hx.
Qed.

(** A row whose fields hold no line break is written with exactly one. *)
Lemma writerow_one_line (row : list str) :
  Forall (Forall (fun c => c <> LF)) row -> count LF (Csv.writerow row) = 1.
Proof.
  intros H. unfold Csv.writerow. rewrite count_app.
  rewrite count_absent; [reflexivity |].
  apply join_row_Forall; [discriminate | discriminate | exact H].
Qed.

Lemma count_rows (rows : list (list str)) :
  Forall (Forall (Forall (fun c => c <> LF))) rows ->
  count LF (concat (map Csv.writerow rows)) = len rows.
Proof.
  induction 1 as [| row r Hrow Hr IH]; [reflexivity |].
  cbn [map concat]. rewrite count_app, writerow_one_line, IH by exact Hrow.
  unfold len. cbn [List.length]. lia.
Qed.

Lemma csv_lines_free (s : str) : Forall (Forall (fun c => c <> LF)) (csv_lines s).
Proof. apply split_pieces_free. Qed.

(** C8, as the code has it.  On a text that is not all white space, the
    serializer trims the whole text and splits it on line breaks, which
    leaves out the blank lines at the start as well as at the end; it
    splits each line on commas and trims each field; and it writes one
    row per line, the table holding as many line breaks as there are
    lines. *)
Theorem serializer_rows_of_trimmed_lines (s : str) :
  blank s = false ->
  csv_rows s = map csv_row (trim_blank_lines (split LF s))
  /\ len (csv_rows s) = len (csv_lines s)
  /\ Forall (Forall (fun f => strip f = f
                              /\ sep_free COMMA f = true
                              /\ sep_free LF f = true)) (csv_rows s)
  /\ csv_output s = concat (map Csv.writerow (csv_rows s))
  /\ count LF (csv_output s) = len (csv_lines s).
Proof.
  intros Hs.
  assert (Hlen : len (csv_rows s) = len (csv_lines s)).
  { unfold csv_rows, len. rewrite length_map. reflexivity. }
  assert (Hfree : Forall (Forall (Forall (fun c => c <> LF))) (csv_rows s)).
  { unfold csv_rows. apply Forall_map.
    eapply Forall_impl; [| apply csv_lines_free].
    intros line. apply csv_row_Forall. }
  split; [apply csv_rows_trim_blank_lines, Hs |].
  split; [exact Hlen |]. split; [| split].
  - unfold csv_rows. apply Forall_map.
    eapply Forall_impl; [| apply csv_lines_free].
    intros line Hline. unfold csv_row. apply Forall_map.
    pose proof (split_pieces_free COMMA line) as Hcomma.
    pose proof (split_Forall (Q := fun c => c <> LF) COMMA Hline) as Hlf.
    rewrite Forall_forall in *. intros f Hf.
    split; [apply strip_idem |].
    split; apply sep_free_Forall, strip_Forall; auto.
  - apply csv_output_rows.
  - rewrite csv_output_rows, count_rows by exact Hfree. exact Hlen.
Qed.

(** C8 at a text with blank lines at both ends and one inside. *)
Lemma serializer_rows_of_trimmed_lines_witness :
  csv_rows ([LF] ++ lit "  " ++ [LF]
            ++ lit " AAAPA1234A , PAN_Of, Asha ," ++ [LF; LF]
            ++ lit "BBBPB5678B,PAN_Of,Ravi,Acme  " ++ [LF]
            ++ lit " " ++ [LF])
  = [[lit "AAAPA1234A"; lit "PAN_Of"; lit "Asha"; []];
     [[]];
     [lit "BBBPB5678B"; lit "PAN_Of"; lit "Ravi"; lit "Acme"]].
Proof.
  refine (eq_trans (proj1 (@serializer_rows_of_trimmed_lines _ _)) _);
    reflexivity.
Defined.

(** C8, counterexample.  A text that starts with an empty line: read as
    the specification words it, the empty first line is a line and gives
    a row; the code trims the text first and writes the second line
    alone. *)
Lemma leading_blank_line_is_dropped :
  let s := [LF] ++ lit "AAAPA1234A,PAN_Of,Asha," in
  spec_rows s = [[[]]; [lit "AAAPA1234A"; lit "PAN_Of"; lit "Asha"; []]]
  /\ csv_rows s = [[lit "AAAPA1234A"; lit "PAN_Of"; lit "Asha"; []]]
  /\ csv_output s = lit "AAAPA1234A,PAN_Of,Asha," ++ [CR; LF].
Proof. vm_compute. repeat split; reflexivity. Qed.

(** ** Surrogates reach the encoder

    A surrogate is neither white space nor a separator, so the serializer
    carries it into the table text, where the encoder refuses it. *)

Section Carried.

Variable c : char.
Hypothesis c_not_space : isspace c = false.
Hypothesis c_not_comma : c <> COMMA.
Hypothesis c_not_lf : c <> LF.

Lemma dropwhile_In (s : str) : In c s -> In c (dropwhile isspace s).
Proof.
  induction s as [| x r IH]; intros H; [exact H |].
  cbn [dropwhile]. destruct (isspace x) eqn:Hx; [| exact H].
  destruct H as [-> | H]; [congruence | apply IH, H].
Qed.

Lemma strip_In (s : str) : In c s -> In c (strip s).
Proof.
  intros H. unfold strip, rstrip, lstrip.
  apply -> in_rev. apply dropwhile_In. apply -> in_rev. apply dropwhile_In, H.
Qed.

Lemma split_In (sep : char) (s : str) :
  c <> sep -> In c s -> Exists (In c) (split sep s).
Proof.
  intros Hsep. induction s as [| x r IH]; intros H; [destruct H |].
  cbn [split]. destruct (Z.eqb_spec x sep) as [-> | Hne].
  - destruct H as [H | H]; [congruence |]. apply Exists_cons_tl, IH, H.
  - destruct (split sep r) as [| w ws] eqn:Hsplit.
    + exfalso. exact (split_nonempty sep r Hsplit).
    + destruct H as [-> | H]; [apply Exists_cons_hd; left; reflexivity |].
      specialize (IH H). inversion IH; subst.
      * apply Exists_cons_hd. right. assumption.
      * apply Exists_cons_tl. assumption.
Qed.

Lemma csv_row_In (line : str) : In c line -> Exists (In c) (csv_row line).
Proof.
  intros H. unfold csv_row. apply Exists_map.
  eapply Exists_impl; [| apply split_In; [exact c_not_comma | exact H]].
  intros f. apply strip_In.
Qed.

Lemma field_data_In (f : str) : In c f -> In c (Csv.field_data f).
Proof.
  induction f as [| x r IH]; intros H; [exact H |].
  cbn [Csv.field_data].
  destruct (x =? Csv.quotechar); destruct H as [-> | H];
    cbn [In]; auto.
Qed.

Lemma join_append_In (st : Csv.record_state) (f : str) (quoted : bool) :
  In c (Csv.rec st) \/ In c f -> In c (Csv.rec (Csv.join_append st f quoted)).
Proof.
  intros H. unfold Csv.join_append. cbn [Csv.rec].
  destruct H as [H | H].
  - apply in_or_app. left. exact H.
  - apply in_or_app. right. apply in_or_app. right.
    apply in_or_app. right. apply in_or_app. left.
    apply field_data_In, H.
Qed.

Lemma join_row_In (row : list str) : Exists (In c) row -> In c (Csv.join_row row).
Proof.
  intros Hrow. unfold Csv.join_row.
  assert (Hfold : forall st, In c (Csv.rec st) \/ Exists (In c) row ->
            In c (Csv.rec (fold_left (fun st field => Csv.join_append st field false)
                                     row st))).
  { clear Hrow. induction row as [| f r IH]; intros st [H | H].
    - exact H.
    - inversion H.
    - cbn [fold_left]. apply IH. left. apply join_append_In. left. exact H.
    - cbn [fold_left]. apply IH. inversion H; subst.
      + left. apply join_append_In. right. assumption.
      + right. assumption. }
  set (st := fold_left _ row _).
  assert (Hst : In c (Csv.rec st)) by (apply Hfold; right; exact Hrow).
  destruct ((0 <? Csv.num_fields st) && (len (Csv.rec st) =? 0)); [| exact Hst].
  apply join_append_In. left. exact Hst.
Qed.

Lemma csv_output_In (s : str) : In c s -> In c (csv_output s).
Proof.
  intros H. rewrite csv_output_rows.
  assert (Hline : Exists (In c) (csv_lines s))
    by (apply split_In; [exact c_not_lf | apply strip_In, H]).
  unfold csv_rows. induction Hline as [l r Hl | l r Hr IH]; cbn [map concat].
  - apply in_or_app. left. unfold Csv.writerow. apply in_or_app. left.
    apply join_row_In, csv_row_In, Hl.
  - apply in_or_app. right. exact IH.
Qed.

End Carried.

(** A well-formed string that holds a surrogate makes [convert_to_csv]
    raise: the condition of C10 cannot be weakened. *)
Lemma surrogate_is_refused (s : str) (tr : trace) :
  well_formed s = true ->
  existsb is_surrogate s = true ->
  exists pos : Z,
    convert_to_csv s tr
    = (inl {| exn_type := UnicodeEncodeError pos;
              exn_msg := lit "surrogates not allowed" |}, tr).
Proof.
  intros Hwf Hs.
  apply existsb_exists in Hs. destruct Hs as (c & Hin & Hc).
  assert (Hcarried : In c (csv_output s)).
  { unfold is_surrogate in Hc. apply andb_true_iff in Hc.
    destruct Hc as [Hlo Hhi]. apply Z.leb_le in Hlo, Hhi.
    apply csv_output_In; [| unfold COMMA; lia | unfold LF; lia | exact Hin].
    unfold isspace. lia. }
  assert (Hwf' : well_formed (csv_output s) = true).
  { apply forallb_forall. intros x Hx.
    assert (H : Forall (fun x => is_code_point x = true) (csv_output s)).
    { apply csv_output_Forall; try reflexivity.
      apply Forall_forall. unfold well_formed in Hwf.
      rewrite forallb_forall in Hwf. exact Hwf. }
    rewrite Forall_forall in H. apply H, Hx. }
  assert (Hs' : existsb is_surrogate (csv_output s) = true)
    by (apply existsb_exists; exists c; split; assumption).
  destruct (Utf8Facts.encode_from_surrogate (csv_output s) 0 Hwf' Hs') as [p Hp].
  exists p. unfold convert_to_csv, Utf8.encode. rewrite Hp. reflexivity.
Qed.

(** ** The scenarios of the 45,000 character text *)

(** Three segments, three successful calls: three lines, three rows of
    four columns. *)
Example scenario_all_succeed :
  let svc := scripted [answer "A,B,C,D"; answer "E,F,G,H"; answer "I,J,K,L"] in
  let result := lit "A,B,C,D
E,F,G,H
I,J,K,L" in
  fst (extract_entities_relations svc (text_of_length 45000) []) = inr result
  /\ csv_rows result
     = [[lit "A"; lit "B"; lit "C"; lit "D"];
        [lit "E"; lit "F"; lit "G"; lit "H"];
        [lit "I"; lit "J"; lit "K"; lit "L"]]
  /\ csv_output result
     = lit "A,B,C,D" ++ [CR; LF] ++ lit "E,F,G,H" ++ [CR; LF]
         ++ lit "I,J,K,L" ++ [CR; LF].
Proof. vm_compute. repeat split; reflexivity. Qed.

(** The call for segment 2 fails: one error notification for chunk 2,
    two lines, two rows. *)
Example scenario_second_fails :
  let svc := scripted [answer "A,B,C,D"; failure "timeout"; answer "I,J,K,L"] in
  let run := extract_entities_relations svc (text_of_length 45000) [] in
  let result := lit "A,B,C,D
I,J,K,L" in
  fst run = inr result
  /\ filter is_error (snd run)
     = [StError ([0x274C] ++ lit " Error in chunk 2: timeout")]
  /\ csv_rows result
     = [[lit "A"; lit "B"; lit "C"; lit "D"];
        [lit "I"; lit "J"; lit "K"; lit "L"]].
Proof. vm_compute. repeat split; reflexivity. Qed.

(** * Further properties *)

(** ** Chunks sent to the service *)

(** X1.  For a positive chunk size, no chunk is empty and none is longer
    than the chunk size: the loop never sends an empty segment. *)
Theorem chunks_nonempty_and_bounded (c : Z) (t ch : str) :
  0 < c -> In ch (chunks_of c t) -> 1 <= len ch <= c.
Proof.
  intros Hc Hin. apply In_nth_error in Hin. destruct Hin as [j Hj].
  pose proof (nth_error_Some_bound _ _ Hj) as Hlt.
  destruct (chunks_of_nth Hc t j Hlt) as [Hnth Hpos].
  pose proof (eq_trans (eq_sym Hnth) Hj) as Heq. injection Heq as <-.
  pose proof (len_nonneg t).
  rewrite len_firstn by lia. rewrite len_skipn by lia. lia.
Qed.

Lemma chunks_nonempty_and_bounded_witness :
  1 <= len (lit "gh") <= 3.
Proof.
  apply (@chunks_nonempty_and_bounded 3 (lit "abcdefgh") (lit "gh")).
  - lia.
  - right. right. left. reflexivity.
Defined.

(** X2.  A text that is not empty and fits the chunk size is sent whole,
    as the only chunk. *)
Theorem short_text_is_one_chunk (c : Z) (t : str) :
  0 < len t <= c -> chunks_of c t = [t].
Proof.
  intros [Hpos Hle].
  assert (Hc : 0 < c) by lia.
  assert (Hcount : len (chunks_of c t) = 1).
  { rewrite chunks_of_count by exact Hc.
    symmetry. apply Z.div_unique with (r := len t - 1); lia. }
  destruct (chunks_of_nth Hc t 0) as [Hnth _].
  { change (0 < len (chunks_of c t)). lia. }
  destruct (chunks_of c t) as [| x [| y r]] eqn:Hch.
  - discriminate Hnth.
  - cbn [nth_error] in Hnth. injection Hnth as ->.
    cbn [Z.of_nat Z.mul Z.to_nat skipn]. f_equal.
    apply firstn_all2. unfold len in Hle. lia.
  - unfold len in Hcount. cbn [List.length] in Hcount. lia.
Qed.

Lemma short_text_is_one_chunk_witness :
  chunks (lit "PAN ABCDE1234F") = [lit "PAN ABCDE1234F"].
Proof.
  apply (@short_text_is_one_chunk CHUNK_SIZE (lit "PAN ABCDE1234F")).
  unfold CHUNK_SIZE, len. cbn [lit List.length]. lia.
Defined.

(** ** Requests and outcomes of a run *)

Lemma loop_requests (complete : service) (total : Z) (items : list (Z * str)) :
  forall k,
  filter is_call (loop_events total items (outcomes complete total k items))
  = map (request_event total) items.
Proof.
  induction items as [| [i chunk] r IH]; intros k; [reflexivity |].
  cbn [outcomes loop_events map]. rewrite filter_app, IH.
  unfold chunk_events, request_event. cbn [fst snd].
  destruct (attempt _); reflexivity.
Qed.

Lemma enumerate_items (A : Type) (xs : list A) : forall start : Z,
  map snd (enumerate start xs) = xs.
Proof.
  induction xs as [| x r IH]; intros start; [reflexivity |].
  cbn [enumerate map snd]. rewrite IH. reflexivity.
Qed.

(** X3.  Whatever the service answers, a run makes exactly one request per
    chunk, in chunk order, each to the configured model with the prompt
    of that chunk; the chunks requested, put end to end, are the text. *)
Theorem run_requests_every_chunk_once (complete : service) (text : str) (tr : trace) :
  let items := enumerate 1 (chunks text) in
  filter is_call (emitted tr (snd (extract_entities_relations complete text tr)))
  = map (request_event (len (chunks text))) items
  /\ concat (map snd items) = text.
Proof.
  cbv zeta. split.
  - rewrite run_spec. cbn [snd]. rewrite emitted_app.
    cbn [app filter is_call]. rewrite filter_app.
    unfold run_outcomes. rewrite loop_requests.
    cbn [filter is_call]. apply app_nil_r.
  - rewrite enumerate_items. apply chunks_concat.
Qed.

Lemma outcomes_partition (outs : list (Z * (exn + str))) :
  len (payloads outs) + len (skipped outs) = len outs
  /\ len (error_events outs) = len (skipped outs).
Proof.
  unfold len. induction outs as [| [i [e | p]] r [IH1 IH2]];
    cbn [payloads skipped error_events List.length]; lia.
Qed.

(** X4.  Every segment of a run ends in exactly one of two ways: its
    payload is part of the result, or its index is reported by an error
    notification.  The payloads and the error notifications together
    number the segments. *)
Theorem every_segment_is_kept_or_reported
    (complete : service) (text : str) (tr : trace) :
  let run := extract_entities_relations complete text tr in
  let outs := run_outcomes complete text tr in
  fst run = inr (join [LF] (payloads outs))
  /\ len (payloads outs) + len (skipped outs) = len (chunks text)
  /\ len (filter is_error (emitted tr (snd run))) = len (skipped outs).
Proof.
  cbv zeta. rewrite run_errors, run_result.
  destruct (outcomes_partition (run_outcomes complete text tr)) as [H1 H2].
  rewrite run_outcomes_length in H1.
  repeat split; assumption.
Qed.

Lemma all_failed (outs : list (Z * (exn + str))) :
  forallb (fun o => negb (succeeded o)) outs = true ->
  payloads outs = [] /\ len (skipped outs) = len outs.
Proof.
  induction outs as [| [i [e | p]] r IH]; intros H.
  - split; reflexivity.
  - cbn in H. destruct (IH H) as [H1 H2]. split; [exact H1 |].
    unfold len in *. cbn [skipped List.length]. lia.
  - discriminate H.
Qed.

(** X5.  When every extraction call fails, the run still makes all its
    calls, reports every segment, and returns the empty text, which the
    serializer turns into a table of one empty quoted field. *)
Theorem all_failures_give_an_empty_result
    (complete : service) (text : str) (tr : trace) :
  forallb (fun o => negb (succeeded o)) (run_outcomes complete text tr) = true ->
  let run := extract_entities_relations complete text tr in
  fst run = inr []
  /\ calls (snd run) = (calls tr + List.length (chunks text))%nat
  /\ len (filter is_error (emitted tr (snd run))) = len (chunks text)
  /\ csv_output [] = [DQUOTE; DQUOTE; CR; LF].
Proof.
  intros H run. subst run.
  destruct (all_failed _ H) as [Hp Hs].
  destruct (outcomes_partition (run_outcomes complete text tr)) as [_ He].
  rewrite run_outcomes_length in Hs.
  rewrite run_errors, run_result, Hp.
  repeat split; [| lia].
  rewrite run_spec. cbn [snd]. rewrite !calls_app.
  unfold run_outcomes. rewrite loop_calls, enumerate_length.
  cbn [calls filter List.length]. lia.
Qed.

Lemma all_failures_give_an_empty_result_witness :
  fst (extract_entities_relations
         (scripted [failure "timeout"; failure "quota"])
         (text_of_length 20001) [])
  = inr [].
Proof.
  assert (H : forallb (fun o => negb (succeeded o))
                (run_outcomes (scripted [failure "timeout"; failure "quota"])
                              (text_of_length 20001) []) = true)
    by (vm_compute; reflexivity).
  exact (proj1 (all_failures_give_an_empty_result _ _ _ H)).
Defined.

(** X6.  The prompt carries the chunk verbatim: for a given position,
    two prompts are equal only if their chunks are. *)
Theorem prompt_determines_chunk (i total : Z) (chunk1 chunk2 : str) :
  prompt_for i total chunk1 = prompt_for i total chunk2 -> chunk1 = chunk2.
Proof.
  unfold prompt_for. intros H.
  repeat apply app_inv_head in H.
  apply app_inv_tail in H. exact H.
Qed.

Lemma prompt_determines_chunk_witness : lit "PAN" = lit "PAN".
Proof.
  apply (@prompt_determines_chunk 1 1 (lit "PAN") (lit "PAN")). reflexivity.
Defined.

(** ** Edges of the serializer *)

Lemma strip_blank (s : str) : blank s = true -> strip s = [].
Proof. intros H. unfold strip. rewrite lstrip_blank by exact H. reflexivity. Qed.

Lemma strip_padded (w1 s w2 : str) :
  blank w1 = true -> blank w2 = true -> strip (w1 ++ s ++ w2) = strip s.
Proof.
  intros H1 H2. unfold strip.
  rewrite lstrip_app, H1. rewrite <- !lstrip_rstrip.
  rewrite rstrip_app, H2. reflexivity.
Qed.

Lemma split_length (sep : char) (s : str) : len (split sep s) = count sep s + 1.
Proof.
  unfold count, len. induction s as [| c r IH]; [reflexivity |].
  cbn [split filter]. rewrite (Z.eqb_sym sep c).
  destruct (c =? sep).
  - cbn [List.length]. lia.
  - pose proof (split_nonempty sep r) as Hn.
    destruct (split sep r) as [| w ws]; [congruence |].
    cbn [List.length] in *. lia.
Qed.

(** X7.  A text of white space only, the empty text included, is written
    as one row made of one empty quoted field: four bytes, never an
    empty table. *)
Theorem blank_text_gives_one_empty_field (s : str) (tr : trace) :
  blank s = true ->
  csv_rows s = [[[]]]
  /\ csv_output s = [DQUOTE; DQUOTE; CR; LF]
  /\ convert_to_csv s tr = (inr [0x22; 0x22; 0x0D; 0x0A], tr).
Proof.
  intros H. unfold convert_to_csv, csv_output, csv_rows, csv_lines.
  rewrite (strip_blank s H). repeat split.
Qed.

Lemma blank_text_gives_one_empty_field_witness :
  csv_output (lit "  " ++ [LF; 0x09; LF] ++ lit " ") = [DQUOTE; DQUOTE; CR; LF].
Proof.
  apply (@blank_text_gives_one_empty_field (lit "  " ++ [LF; 0x09; LF] ++ lit " ") []).
  reflexivity.
Defined.

(** X8.  White space around the text, blank lines included, changes
    nothing of the table. *)
Theorem surrounding_white_space_is_ignored (w1 s w2 : str) (tr : trace) :
  blank w1 = true -> blank w2 = true ->
  csv_rows (w1 ++ s ++ w2) = csv_rows s
  /\ convert_to_csv (w1 ++ s ++ w2) tr = convert_to_csv s tr.
Proof.
  intros H1 H2. unfold convert_to_csv, csv_output, csv_rows, csv_lines.
  rewrite (@strip_padded w1 s w2 H1 H2). split; reflexivity.
Qed.

Lemma surrounding_white_space_is_ignored_witness :
  csv_rows ([LF] ++ lit "A, B" ++ [LF; LF]) = csv_rows (lit "A, B").
Proof.
  apply (@surrounding_white_space_is_ignored [LF] (lit "A, B") [LF; LF] []);
    reflexivity.
Defined.

(** X9.  Nothing fixes the number of columns: a line gives one field more
    than it holds commas, and the table has one row more than the trimmed
    text holds line breaks. *)
Theorem fields_follow_commas (s line : str) :
  len (csv_row line) = count COMMA line + 1
  /\ len (csv_rows s) = count LF (strip s) + 1.
Proof.
  split.
  - unfold csv_row, len. rewrite length_map. apply split_length.
  - unfold csv_rows, csv_lines, len. rewrite length_map. apply split_length.
Qed.

(** X10.  On text of ASCII characters the bytes returned are the
    characters of the table text, one byte each. *)
Theorem ascii_text_is_written_as_is (s : str) (tr : trace) :
  forallb (fun c => (0 <=? c) && (c <? 0x80)) s = true ->
  convert_to_csv s tr = (inr (csv_output s), tr).
Proof.
  intros H.
  assert (Hout : Forall (fun c => 0 <= c < 0x80) (csv_output s)).
  { apply csv_output_Forall; try (unfold COMMA, DQUOTE, CR, LF; lia).
    apply Forall_forall. intros c Hc. rewrite forallb_forall in H.
    specialize (H c Hc). lia. }
  unfold convert_to_csv, Utf8.encode.
  assert (Henc : forall pos, Utf8.encode_from pos (csv_output s) = inr (csv_output s)).
  { induction Hout as [| c r Hc Hr IH]; intros pos; [reflexivity |].
    cbn [Utf8.encode_from]. unfold Utf8.encode_char.
    replace (c <? 0x80) with true by lia. rewrite IH. reflexivity. }
  rewrite Henc. reflexivity.
Qed.

Lemma ascii_text_is_written_as_is_witness :
  convert_to_csv (lit "AAAPA1234A, PAN_Of ,Asha") []
  = (inr (lit "AAAPA1234A,PAN_Of,Asha" ++ [CR; LF]), []).
Proof.
  apply (@ascii_text_is_written_as_is (lit "AAAPA1234A, PAN_Of ,Asha") []).
  reflexivity.
Defined.

(** ** The table text can be read back *)

Section Reading.

Lemma field_data_plain (f : str) :
  existsb Csv.special f = false -> Csv.field_data f = f.
Proof.
  induction f as [| c r IH]; intros H; [reflexivity |].
  cbn [existsb] in H. apply orb_false_iff in H. destruct H as [Hc Hr].
  cbn [Csv.field_data]. unfold Csv.special in Hc.
  apply orb_false_iff in Hc. destruct Hc as [Hc _].
  apply orb_false_iff in Hc. destruct Hc as [_ Hq].
  rewrite Hq, (IH Hr). reflexivity.
Qed.

Lemma join_append_next (buffer : str) (n : Z) (f : str) :
  0 < n ->
  Csv.join_append {| Csv.rec := buffer; Csv.num_fields := n |} f false
  = {| Csv.rec := buffer ++ COMMA :: written_field f; Csv.num_fields := n + 1 |}.
Proof.
  intros Hn. unfold Csv.join_append, written_field.
  cbn [Csv.rec Csv.num_fields orb]. replace (0 <? n) with true by lia.
  reflexivity.
Qed.

Lemma join_append_first (f : str) :
  Csv.join_append {| Csv.rec := []; Csv.num_fields := 0 |} f false
  = {| Csv.rec := written_field f; Csv.num_fields := 1 |}.
Proof. reflexivity. Qed.

(** The record buffer after the fields [fs] were joined to a buffer that
    holds a field already. *)
Lemma fold_join_append (fs : list str) : forall (buffer : str) (n : Z),
  0 < n ->
  fold_left (fun st field => Csv.join_append st field false) fs
            {| Csv.rec := buffer; Csv.num_fields := n |}
  = {| Csv.rec := buffer ++ concat (map (fun f => COMMA :: written_field f) fs);
       Csv.num_fields := n + len fs |}.
Proof.
  induction fs as [| f r IH]; intros buffer n Hn; cbn [fold_left map concat].
  - rewrite app_nil_r. unfold len. cbn [List.length]. rewrite Z.add_0_r.
    reflexivity.
  - rewrite join_append_next by exact Hn. rewrite IH by lia.
    rewrite <- app_assoc. cbn [app]. f_equal.
    unfold len. cbn [List.length]. lia.
Qed.

Lemma written_field_nil (f : str) : written_field f = [] -> f = [].
Proof.
  unfold written_field. cbv zeta. destruct f as [| c r]; [reflexivity |].
  intros H. apply app_eq_nil in H. destruct H as [_ H].
  apply app_eq_nil in H. destruct H as [H _].
  cbn [Csv.field_data] in H. destruct (c =? Csv.quotechar); discriminate H.
Qed.

(** The text of a row: its fields as written, commas between them; the
    row of one empty field is written as an empty quoted field. *)
Lemma join_row_fields (f : str) (fs : list str) :
  Csv.join_row (f :: fs)
  = match f, fs with
    | [], [] => [DQUOTE; DQUOTE]
    | _, _ => written_field f ++ concat (map (fun f => COMMA :: written_field f) fs)
    end.
Proof.
  unfold Csv.join_row. cbn [fold_left]. cbv zeta.
  rewrite join_append_first, fold_join_append by lia.
  cbn [Csv.rec Csv.num_fields].
  pose proof (len_nonneg fs) as Hfs.
  replace (0 <? 1 + len fs) with true by lia.
  cbn [andb].
  destruct f as [| c r]; [destruct fs as [| g gs] |].
  - reflexivity.
  - cbn [map concat]. unfold written_field at 1. cbn [existsb Csv.field_data app].
    reflexivity.
  - destruct (len (written_field (c :: r) ++ _) =? 0) eqn:Hz; [| reflexivity].
    exfalso. apply Z.eqb_eq in Hz. apply len_nil_inv in Hz.
    apply app_eq_nil in Hz. destruct Hz as [Hz _].
    apply written_field_nil in Hz. discriminate Hz.
Qed.

Lemma read_quoted_data (f : str) : forall acc fields rows rest,
  read InQuoted acc fields rows (Csv.field_data f ++ DQUOTE :: rest)
  = read QuoteInQuoted (rev f ++ acc) fields rows rest.
Proof.
  induction f as [| c r IH]; intros acc fields rows rest; [reflexivity |].
  cbn [Csv.field_data rev]. rewrite <- app_assoc. cbn [app].
  destruct (Z.eqb_spec c Csv.quotechar) as [-> | Hne].
  - cbn [app read]. change (Csv.quotechar =? DQUOTE) with true. cbn iota.
    apply IH.
  - cbn [app read]. replace (c =? DQUOTE) with false
      by (symmetry; apply Z.eqb_neq; exact Hne).
    apply IH.
Qed.

Lemma special_false (c : char) :
  Csv.special c = false -> c <> COMMA /\ c <> DQUOTE /\ c <> CR /\ c <> LF.
Proof.
  unfold Csv.special, Csv.delimiter, Csv.quotechar, Csv.lineterminator.
  cbn [existsb]. unfold COMMA, DQUOTE, CR, LF. lia.
Qed.

Lemma read_raw_data (f : str) : forall acc fields rows rest,
  existsb Csv.special f = false ->
  read InField acc fields rows (f ++ rest)
  = read InField (rev f ++ acc) fields rows rest.
Proof.
  induction f as [| c r IH]; intros acc fields rows rest H; [reflexivity |].
  cbn [existsb] in H. apply orb_false_iff in H. destruct H as [Hc Hr].
  apply special_false in Hc. destruct Hc as (H1 & H2 & H3 & H4).
  cbn [app read rev]. rewrite <- app_assoc. cbn [app].
  replace (c =? COMMA) with false by (symmetry; apply Z.eqb_neq; exact H1).
  replace (c =? CR) with false by (symmetry; apply Z.eqb_neq; exact H3).
  apply IH, Hr.
Qed.

Lemma read_field_end (d : char) (acc : str) fields rows rest :
  d = COMMA \/ d = CR ->
  read InField acc fields rows (d :: rest)
  = read (after d) [] (rev acc :: fields) rows rest
  /\ read QuoteInQuoted acc fields rows (d :: rest)
     = read (after d) [] (rev acc :: fields) rows rest.
Proof. intros [-> | ->]; split; reflexivity. Qed.

(** A written field, read from the start of a field. *)
Lemma read_written_field (f : str) (d : char) fields rows rest :
  d = COMMA \/ d = CR ->
  read StartField [] fields rows (written_field f ++ d :: rest)
  = read (after d) [] (f :: fields) rows rest
  /\ (f <> [] \/ d = COMMA ->
      read StartRecord [] [] rows (written_field f ++ d :: rest)
      = read (after d) [] [f] rows rest).
Proof.
  intros Hd. unfold written_field. cbv zeta.
  destruct (existsb Csv.special f) eqn:Hsp.
  - rewrite <- !app_assoc.
    change ([Csv.quotechar] ++ Csv.field_data f ++ [Csv.quotechar] ++ d :: rest)
      with (DQUOTE :: (Csv.field_data f ++ DQUOTE :: d :: rest)).
    cbn [read]. change (DQUOTE =? DQUOTE) with true.
    change (DQUOTE =? CR) with false. cbn iota.
    rewrite !read_quoted_data, app_nil_r.
    destruct (@read_field_end d (rev f) fields rows rest Hd) as [_ ->].
    destruct (@read_field_end d (rev f) [] rows rest Hd) as [_ ->].
    rewrite rev_involutive. split; reflexivity.
  - cbn [app]. rewrite app_nil_r, (field_data_plain f Hsp).
    destruct f as [| c r].
    + cbn [app]. split.
      * destruct Hd as [-> | ->]; reflexivity.
      * intros [H | ->]; [congruence | reflexivity].
    + cbn [existsb] in Hsp. apply orb_false_iff in Hsp. destruct Hsp as [Hc Hr].
      apply special_false in Hc. destruct Hc as (H1 & H2 & H3 & H4).
      cbn [app read].
      replace (c =? COMMA) with false by (symmetry; apply Z.eqb_neq; exact H1).
      replace (c =? DQUOTE) with false by (symmetry; apply Z.eqb_neq; exact H2).
      replace (c =? CR) with false by (symmetry; apply Z.eqb_neq; exact H3).
      rewrite !(read_raw_data r) by exact Hr.
      destruct (@read_field_end d (rev r ++ [c]) fields rows rest Hd) as [-> _].
      destruct (@read_field_end d (rev r ++ [c]) [] rows rest Hd) as [-> _].
      rewrite rev_app_distr, rev_involutive. split; [reflexivity |].
      intros _. reflexivity.
Qed.

Lemma read_next_field (f : str) (d : char) fields rows rest :
  d = COMMA \/ d = CR ->
  read StartField [] fields rows (written_field f ++ d :: rest)
  = read (after d) [] (f :: fields) rows rest.
Proof. intros Hd. apply (@read_written_field f d fields rows rest Hd). Qed.

Lemma read_first_field (f : str) (d : char) rows rest :
  d = COMMA \/ d = CR -> f <> [] \/ d = COMMA ->
  read StartRecord [] [] rows (written_field f ++ d :: rest)
  = read (after d) [] [f] rows rest.
Proof. intros Hd Hf. apply (@read_written_field f d [] rows rest Hd), Hf. Qed.

(** The fields of a row after its first, read to the end of the row. *)
Lemma read_more_fields (fs : list str) : forall f fields rows rest,
  read StartField [] fields rows
       (written_field f ++ concat (map (fun f => COMMA :: written_field f) fs)
          ++ CR :: LF :: rest)
  = read StartRecord [] [] (rev (rev (f :: fs) ++ fields) :: rows) rest.
Proof.
  induction fs as [| g gs IH]; intros f fields rows rest.
  - cbn [map concat app].
    rewrite read_next_field by (right; reflexivity). reflexivity.
  - cbn [map concat]. rewrite <- app_assoc. cbn [app].
    rewrite read_next_field by (left; reflexivity).
    change (after COMMA) with StartField. rewrite IH.
    do 3 f_equal. cbn [rev]. rewrite <- !app_assoc. reflexivity.
Qed.

(** A row that is not empty, read from the start of a record. *)
Lemma read_row (row : list str) (rows : list (list str)) (rest : str) :
  row <> [] ->
  read StartRecord [] [] rows (Csv.writerow row ++ rest)
  = read StartRecord [] [] (row :: rows) rest.
Proof.
  intros Hrow. destruct row as [| f fs]; [congruence |].
  unfold Csv.writerow. rewrite join_row_fields.
  destruct f as [| c r]; [destruct fs as [| g gs] |].
  - reflexivity.
  - rewrite <- app_assoc. cbn [map concat]. rewrite <- app_assoc.
    change (Csv.lineterminator ++ rest) with (CR :: LF :: rest).
    cbn [written_field existsb Csv.field_data app].
    change (read StartRecord [] [] rows (COMMA :: ?x))
      with (read StartField [] [[]] rows x).
    rewrite <- app_assoc, read_more_fields. do 2 f_equal.
    cbn [rev]. rewrite <- !app_assoc, rev_app_distr, rev_app_distr, rev_involutive.
    reflexivity.
  - rewrite <- app_assoc.
    change (Csv.lineterminator ++ rest) with (CR :: LF :: rest).
    destruct fs as [| g gs].
    + cbn [map concat]. rewrite app_nil_r.
      rewrite read_first_field by ((right; reflexivity) || (left; discriminate)).
      reflexivity.
    + cbn [map concat]. rewrite <- !app_assoc. cbn [app]. rewrite <- ?app_assoc.
      rewrite read_first_field by ((left; reflexivity) || (right; reflexivity)).
      change (after COMMA) with StartField. rewrite read_more_fields.
      do 2 f_equal. cbn [rev].
      rewrite <- !app_assoc, rev_app_distr, rev_app_distr, rev_involutive.
      reflexivity.
Qed.

Lemma read_rows (rows : list (list str)) : forall acc,
  Forall (fun row => row <> []) rows ->
  read StartRecord [] [] acc (concat (map Csv.writerow rows))
  = Some (rev acc ++ rows).
Proof.
  induction rows as [| row r IH]; intros acc H.
  - cbn. rewrite app_nil_r. reflexivity.
  - inversion H as [| ? ? Hrow Hr]; subst. cbn [map concat].
    rewrite read_row by exact Hrow. rewrite IH by exact Hr.
    cbn [rev]. rewrite <- app_assoc. reflexivity.
Qed.

Lemma csv_rows_nonempty (s : str) : Forall (fun row => row <> []) (csv_rows s).
Proof.
  unfold csv_rows. apply Forall_map, Forall_forall. intros line _.
  unfold csv_row. pose proof (split_nonempty COMMA line) as Hn.
  destruct (split COMMA line); [congruence | discriminate].
Qed.

Lemma read_csv_output (s : str) : read_table (csv_output s) = Some (csv_rows s).
Proof.
  unfold read_table. rewrite csv_output_rows.
  apply (@read_rows (csv_rows s) []), csv_rows_nonempty.
Qed.

End Reading.

(** X11.  The table text loses nothing of the rows: a quote-aware reader
    gets back from it exactly the rows that were written, so two texts
    that give the same table have the same rows. *)
Theorem table_text_determines_rows (s s' : str) :
  read_table (csv_output s) = Some (csv_rows s)
  /\ (csv_output s = csv_output s' -> csv_rows s = csv_rows s').
Proof.
  split; [apply read_csv_output |].
  intros H. pose proof (read_csv_output s) as H1.
  rewrite H, read_csv_output in H1. congruence.
Qed.

(** ** Text extraction from the PDF *)

Section PdfText.

Lemma for_pages_readable (pages : list pdf_page) : forall (text : str) (tr : trace),
  readable pages = true ->
  for_pages pages text tr
  = (inr (text ++ concat (map (fun t => t ++ [LF]) (page_texts pages))), tr).
Proof.
  induction pages as [| page r IH]; intros text tr H.
  - cbn. unfold ret. rewrite app_nil_r. reflexivity.
  - cbn [readable forallb] in H. apply andb_true_iff in H. destruct H as [Hp Hr].
    destruct page as [e | page_text]; [discriminate Hp |].
    cbn [for_pages]. unfold bind, page_extract_text, ret.
    rewrite (IH _ _ Hr).
    destruct page_text as [[| c t] |]; cbn [truthy page_texts map concat];
      rewrite <- ?app_assoc; reflexivity.
Qed.

(** The loop stops at the first page that raises, with its exception. *)
Lemma for_pages_raises (pre post : list pdf_page) (e : exn) :
  forall (text : str) (tr : trace),
  readable pre = true ->
  for_pages (pre ++ inl e :: post) text tr = (inl e, tr).
Proof.
  induction pre as [| page r IH]; intros text tr H.
  - reflexivity.
  - cbn [readable forallb] in H. apply andb_true_iff in H. destruct H as [Hp Hr].
    destruct page as [e' | page_text]; [discriminate Hp |].
    cbn [app for_pages]. unfold bind at 1. unfold page_extract_text, ret.
    apply IH, Hr.
Qed.

Lemma for_pages_trace (pages : list pdf_page) : forall (text : str) (tr : trace),
  snd (for_pages pages text tr) = tr.
Proof.
  induction pages as [| [e | page_text] r IH]; intros text tr; [reflexivity .. |].
  cbn [for_pages]. unfold bind, page_extract_text, ret. apply IH.
Qed.

Lemma concat_lines (ts : list str) :
  strip (concat (map (fun t => t ++ [LF]) ts)) = strip (join [LF] ts).
Proof.
  assert (H : ts <> [] ->
              concat (map (fun t => t ++ [LF]) ts) = join [LF] ts ++ [LF]).
  { induction ts as [| t r IH]; intros Hne; [congruence |].
    destruct r as [| u r'].
    - cbn. rewrite app_nil_r. reflexivity.
    - change (concat (map (fun t => t ++ [LF]) (t :: u :: r')))
        with ((t ++ [LF]) ++ concat (map (fun t => t ++ [LF]) (u :: r'))).
      rewrite IH by discriminate.
      rewrite (join_cons LF t (xs := u :: r')) by discriminate.
      rewrite <- !app_assoc. reflexivity. }
  destruct ts as [| t r]; [reflexivity |].
  rewrite H by discriminate.
  apply (@strip_padded [] _ [LF]); reflexivity.
Qed.

Lemma lstrip_head_not_space (s : str) (c : char) (rest : str) :
  lstrip s = c :: rest -> isspace c = false.
Proof.
  induction s as [| x r IH]; intros H; [discriminate H |].
  unfold lstrip in *. cbn [dropwhile] in H.
  destruct (isspace x) eqn:Hx; [apply IH, H |].
  injection H as <- _. exact Hx.
Qed.

Lemma strip_ends_not_space (s : str) (c : char) :
  (forall rest, strip s = c :: rest -> isspace c = false)
  /\ (forall init, strip s = init ++ [c] -> isspace c = false).
Proof.
  split.
  - intros rest H. unfold strip in H. rewrite <- lstrip_rstrip in H.
    eapply lstrip_head_not_space, H.
  - intros init H. unfold strip, rstrip in H. fold (lstrip (rev (lstrip s))) in H.
    apply (f_equal (@rev char)) in H. rewrite rev_involutive, rev_app_distr in H.
    eapply lstrip_head_not_space, H.
Qed.

Lemma extract_pdf_text_value (file : pdf_file) (tr tr' : trace) (r : str) :
  extract_pdf_text file tr = (inr r, tr') -> tr' = tr /\ exists text, r = strip text.
Proof.
  unfold extract_pdf_text, bind, pdf_reader, ret, raise.
  destruct file as [e | pages]; [discriminate |].
  pose proof (for_pages_trace pages [] tr) as Htr.
  destruct (for_pages pages [] tr) as [[e | text] t]; [discriminate |].
  cbn [snd] in Htr. intros H. injection H as <- <-.
  split; [exact Htr | exists text; reflexivity].
Qed.

End PdfText.

(** X12.  When no page raises, the extracted text is the texts of the
    pages that have some, in page order, joined by line breaks, and
    trimmed; a page without text leaves nothing, not even a line. *)
Theorem extracted_text_joins_page_texts (pages : list pdf_page) (tr : trace) :
  readable pages = true ->
  extract_pdf_text (inr pages) tr
  = (inr (strip (join [LF] (page_texts pages))), tr).
Proof.
  intros H. unfold extract_pdf_text, pdf_reader, bind, ret.
  rewrite (for_pages_readable pages [] tr H). cbn [app].
  rewrite concat_lines. reflexivity.
Qed.

Lemma extracted_text_joins_page_texts_witness :
  extract_pdf_text
    (inr [inr (Some (lit " Asha, PAN AAAPA1234A ")); inr None; inr (Some []);
          inr (Some (lit "Ravi, PAN BBBPB5678B") )]) []
  = (inr (lit "Asha, PAN AAAPA1234A " ++ [LF] ++ lit "Ravi, PAN BBBPB5678B"), []).
Proof.
  apply (@extracted_text_joins_page_texts
           [inr (Some (lit " Asha, PAN AAAPA1234A ")); inr None; inr (Some []);
            inr (Some (lit "Ravi, PAN BBBPB5678B"))] []).
  reflexivity.
Defined.

(** X13.  Whatever the file, a text that [extract_pdf_text] returns
    neither starts nor ends with white space, and the extraction shows
    nothing to the user. *)
Theorem extracted_text_is_trimmed (file : pdf_file) (tr tr' : trace) (r : str) :
  extract_pdf_text file tr = (inr r, tr') ->
  tr' = tr
  /\ strip r = r
  /\ (forall c rest, r = c :: rest -> isspace c = false)
  /\ (forall c init, r = init ++ [c] -> isspace c = false).
Proof.
  intros H. destruct (extract_pdf_text_value file tr H) as (Htr & text & ->).
  split; [exact Htr |]. split; [apply strip_idem |].
  split; intros c x Hx.
  - exact (proj1 (strip_ends_not_space text c) x Hx).
  - exact (proj2 (strip_ends_not_space text c) x Hx).
Qed.

Lemma extracted_text_is_trimmed_witness :
  strip (lit "Asha") = lit "Asha".
Proof.
  apply (@extracted_text_is_trimmed (inr [inr (Some (lit "  Asha "))]) [] [] (lit "Asha")).
  reflexivity.
Defined.

(** ** The handler as a whole *)

(** The encoder refuses exactly the texts that hold a surrogate. *)
Lemma encode_char_surrogate (c : char) :
  Utf8.encode_char c = None <-> is_surrogate c = true.
Proof.
  unfold Utf8.encode_char.
  destruct (c <? 0x80) eqn:H1; [split; [discriminate | unfold is_surrogate; lia] |].
  destruct (c <? 0x800) eqn:H2; [split; [discriminate | unfold is_surrogate; lia] |].
  destruct (c <? 0x10000) eqn:H3; [| split; [discriminate | unfold is_surrogate; lia]].
  destruct (is_surrogate c); split; congruence.
Qed.

Lemma encode_accepts (s : str) : forall pos,
  has_surrogate s = false -> exists bytes, Utf8.encode_from pos s = inr bytes.
Proof.
  unfold has_surrogate. induction s as [| c r IH]; intros pos H.
  - exists []. reflexivity.
  - cbn [existsb] in H. apply orb_false_iff in H. destruct H as [Hc Hr].
    cbn [Utf8.encode_from].
    destruct (Utf8.encode_char c) as [bs |] eqn:Hbs.
    + destruct (IH (pos + 1) Hr) as [rest ->]. eexists. reflexivity.
    + apply encode_char_surrogate in Hbs. congruence.
Qed.

Lemma encode_refuses (s : str) : forall pos,
  has_surrogate s = true -> exists p, Utf8.encode_from pos s = inl p.
Proof.
  unfold has_surrogate. induction s as [| c r IH]; intros pos H; [discriminate H |].
  cbn [existsb] in H. cbn [Utf8.encode_from].
  destruct (Utf8.encode_char c) as [bs |] eqn:Hbs; [| eexists; reflexivity].
  destruct (is_surrogate c) eqn:Hc.
  - apply encode_char_surrogate in Hc. congruence.
  - cbn [orb] in H. destruct (IH (pos + 1) H) as [p ->]. eexists. reflexivity.
Qed.

Lemma encode_result (s : str) :
  match Utf8.encode s with
  | inr _ => has_surrogate s = false
  | inl _ => has_surrogate s = true
  end.
Proof.
  unfold Utf8.encode. destruct (has_surrogate s) eqn:H.
  - destruct (encode_refuses s 0 H) as [p ->]. reflexivity.
  - destruct (encode_accepts s 0 H) as [b ->]. reflexivity.
Qed.

(** The table text of a text without surrogates has none. *)
Lemma csv_output_no_surrogate (s : str) :
  has_surrogate s = false -> has_surrogate (csv_output s) = false.
Proof.
  intros H.
  assert (HF : forall u, has_surrogate u = false
                         <-> Forall (fun c => is_surrogate c = false) u).
  { intros u. unfold has_surrogate. induction u as [| c r IH]; cbn [existsb].
    - split; [constructor | reflexivity].
    - rewrite orb_false_iff, IH. split.
      + intros [Hc Hr]. constructor; assumption.
      + intros Hu. inversion Hu; subst. split; assumption. }
  apply HF. apply csv_output_Forall; try reflexivity. apply HF, H.
Qed.

Section Handler.

Variable complete : service.

Lemma run_calls (text : str) (tr : trace) :
  calls (snd (extract_entities_relations complete text tr))
  = (calls tr + List.length (chunks text))%nat.
Proof.
  rewrite run_spec. cbn [snd]. rewrite !calls_app.
  unfold run_outcomes. rewrite loop_calls, enumerate_length.
  cbn [calls filter List.length]. lia.
Qed.

Lemma bind_emit (B : Type) (ev : event) (k : unit -> M B) (tr : trace) :
  bind (emit ev) k tr = k tt (tr ++ [ev]).
Proof. reflexivity. Qed.

Lemma bind_ret (A B : Type) (a : A) (k : A -> M B) (tr : trace) :
  bind (ret a) k tr = k a tr.
Proof. reflexivity. Qed.

Lemma bind_bind (A B C : Type) (m : M A) (f : A -> M B) (g : B -> M C) (tr : trace) :
  bind (bind m f) g tr = bind m (fun x => bind (f x) g) tr.
Proof. unfold bind. destruct (m tr) as [[e | a] tr']; reflexivity. Qed.

Lemma bind_value (A B : Type) (m : M A) (k : A -> M B) (a : A) (tr tr' : trace) :
  m tr = (inr a, tr') -> bind m k tr = k a tr'.
Proof. intros H. unfold bind. rewrite H. reflexivity. Qed.

Lemma bind_raises (A B : Type) (m : M A) (k : A -> M B) (e : exn) (tr tr' : trace) :
  m tr = (inl e, tr') -> bind m k tr = (inl e, tr').
Proof. intros H. unfold bind. rewrite H. reflexivity. Qed.

Lemma run_pair (text : str) (tr : trace) :
  extract_entities_relations complete text tr
  = (inr (join [LF] (payloads (run_outcomes complete text tr))),
     snd (extract_entities_relations complete text tr)).
Proof. rewrite run_spec. reflexivity. Qed.

(** The guard returns the capped text and shows the warning on a long
    text only. *)
Lemma size_guard_spec (t : str) (tr : trace) :
  size_guard t tr = (inr (cap_text t), tr ++ guard_events t).
Proof.
  unfold size_guard, cap_text, guard_events.
  destruct (len t >? MAX_TEXT).
  - reflexivity.
  - unfold ret. rewrite app_nil_r. reflexivity.
Qed.

Lemma preview_of_capped (t : str) : slice (cap_text t) 0 1000 = slice t 0 1000.
Proof.
  rewrite !slice_prefix by lia.
  destruct (Z.le_gt_cases (len t) MAX_TEXT) as [Hle | Hgt].
  - rewrite cap_text_short by exact Hle. reflexivity.
  - rewrite cap_text_long by lia. rewrite firstn_firstn.
    replace (Nat.min (Z.to_nat 1000) (Z.to_nat MAX_TEXT)) with (Z.to_nat 1000)
      by (unfold MAX_TEXT; lia).
    reflexivity.
Qed.

(** The run under its spinner. *)
Lemma spinner_run (text : str) (tr : trace) :
  with_spinner sending_text (extract_entities_relations complete text) tr
  = (inr (join [LF] (payloads (run_outcomes complete text
                                 (tr ++ [StSpinner sending_text])))),
     snd (extract_entities_relations complete text (tr ++ [StSpinner sending_text]))
     ++ [StSpinnerDone]).
Proof. unfold with_spinner. rewrite run_pair. reflexivity. Qed.

(** The handler from the size guard on, as one equation.  A surrogate
    among the first 1,000 characters stops it at the preview, before any
    request; a surrogate in the extracted data stops it at the second
    text area, after the requests; otherwise it ends with the download. *)
Lemma on_extract_run (t : str) (tr : trace) :
  let tr1 := trace_at_run t tr in
  let data := handler_data complete t tr in
  let tr2 := snd (extract_entities_relations complete (cap_text t) tr1)
             ++ [StSpinnerDone; entities_extracted] in
  on_extract complete t tr
  = match Utf8.encode (slice t 0 1000) with
    | inl pos => (inl (unicode_error pos), tr ++ guard_events t ++ [text_extracted])
    | inr _ =>
        match Utf8.encode data with
        | inl pos => (inl (unicode_error pos), tr2)
        | inr _ =>
            match Utf8.encode (csv_output data) with
            | inl pos => (inl (unicode_error pos), tr2 ++ [StTextArea data_label data])
            | inr bytes =>
                (inr bytes,
                 tr2 ++ [StTextArea data_label data; StDownloadButton bytes])
            end
        end
    end.
Proof.
  cbv zeta. unfold on_extract.
  rewrite (@bind_value _ _ _ _ _ _ _ (size_guard_spec t tr)).
  rewrite bind_emit. unfold st_text_area at 1. rewrite preview_of_capped.
  destruct (Utf8.encode (slice t 0 1000)) as [pos | pv].
  { unfold bind, raise. rewrite <- app_assoc. reflexivity. }
  rewrite bind_emit.
  replace (((tr ++ guard_events t) ++ [text_extracted])
           ++ [StTextArea preview_label (slice t 0 1000)] ++ [StSpinner sending_text])
    with (trace_at_run t tr)
    by (unfold trace_at_run; rewrite <- !app_assoc; reflexivity).
  assert (Hsp : with_spinner sending_text (extract_entities_relations complete (cap_text t))
            (((tr ++ guard_events t) ++ [text_extracted])
             ++ [StTextArea preview_label (slice t 0 1000)])
          = (inr (handler_data complete t tr),
             snd (extract_entities_relations complete (cap_text t) (trace_at_run t tr))
             ++ [StSpinnerDone])).
  { rewrite spinner_run. unfold handler_data.
    replace ((((tr ++ guard_events t) ++ [text_extracted])
              ++ [StTextArea preview_label (slice t 0 1000)]) ++ [StSpinner sending_text])
      with (trace_at_run t tr)
      by (unfold trace_at_run; rewrite <- !app_assoc; reflexivity).
    reflexivity. }
  rewrite (@bind_value _ _ _ _ _ _ _ Hsp). rewrite bind_emit.
  replace ((snd (extract_entities_relations complete (cap_text t) (trace_at_run t tr))
            ++ [StSpinnerDone]) ++ [entities_extracted])
    with (snd (extract_entities_relations complete (cap_text t) (trace_at_run t tr))
          ++ [StSpinnerDone; entities_extracted])
    by (rewrite <- app_assoc; reflexivity).
  unfold st_text_area.
  destruct (Utf8.encode (handler_data complete t tr)) as [pos | dv].
  { reflexivity. }
  rewrite bind_emit. unfold convert_to_csv.
  destruct (Utf8.encode (csv_output (handler_data complete t tr))) as [pos | bytes].
  - reflexivity.
  - unfold bind, ret, emit. rewrite <- app_assoc. reflexivity.
Qed.

End Handler.

Section HandlerFacts.

Variable complete : service.

(** The loop shows progress, requests and errors, and nothing else. *)
Lemma loop_events_only (p : event -> bool) (total : Z) :
  (forall v text, p (ProgressUpdate v text) = false) ->
  (forall model prompt, p (ChatComplete model prompt) = false) ->
  (forall text, p (StError text) = false) ->
  forall (items : list (Z * str)) (outs : list (Z * (exn + str))),
  filter p (loop_events total items outs) = [].
Proof.
  intros Hu Hc He. induction items as [| item r IH]; intros outs; [reflexivity |].
  destruct outs as [| o os]; [reflexivity |].
  cbn [loop_events]. rewrite filter_app, IH, app_nil_r.
  unfold chunk_events. cbn [app filter]. rewrite Hu, Hc.
  destruct (snd o); cbn [filter]; rewrite ?He; reflexivity.
Qed.

(** What a run adds to the trace. *)
Lemma run_events_spec (text : str) (tr : trace) :
  run_events complete text tr
  = [StProgress (Int 0) starting_text]
    ++ loop_events (len (chunks text)) (enumerate 1 (chunks text))
                   (run_outcomes complete text tr)
    ++ [ProgressUpdate (Float 1 1) completed_text].
Proof. unfold run_events. rewrite run_spec. cbn [snd]. apply emitted_app. Qed.

Lemma run_trace (text : str) (tr : trace) :
  snd (extract_entities_relations complete text tr) = tr ++ run_events complete text tr.
Proof. rewrite run_events_spec, run_spec. reflexivity. Qed.

Lemma run_events_requests (text : str) (tr : trace) :
  filter is_call (run_events complete text tr)
  = map (request_event (len (chunks text))) (enumerate 1 (chunks text)).
Proof.
  rewrite run_events_spec, !filter_app. unfold run_outcomes.
  rewrite loop_requests. cbn [filter is_call app]. apply app_nil_r.
Qed.

Lemma run_events_quiet (p : event -> bool) (text : str) (tr : trace) :
  (forall v text, p (StProgress v text) = false) ->
  (forall v text, p (ProgressUpdate v text) = false) ->
  (forall model prompt, p (ChatComplete model prompt) = false) ->
  (forall text, p (StError text) = false) ->
  filter p (run_events complete text tr) = [].
Proof.
  intros Hs Hu Hc He. rewrite run_events_spec, !filter_app.
  rewrite loop_events_only by assumption.
  cbn [filter app]. rewrite Hs, Hu. reflexivity.
Qed.

(** Everything the handler shows, in order. *)
Lemma on_extract_emitted (t : str) (tr : trace) :
  let data := handler_data complete t tr in
  emitted tr (snd (on_extract complete t tr))
  = guard_events t ++ [text_extracted]
    ++ (if has_surrogate (slice t 0 1000) then []
        else [StTextArea preview_label (slice t 0 1000); StSpinner sending_text]
             ++ run_events complete (cap_text t) (trace_at_run t tr)
             ++ [StSpinnerDone; entities_extracted]
             ++ (if has_surrogate data then [] else [StTextArea data_label data])
             ++ match fst (on_extract complete t tr) with
                | inr bytes => [StDownloadButton bytes]
                | inl _ => []
                end).
Proof.
  cbv zeta. rewrite on_extract_run. cbv zeta.
  pose proof (encode_result (slice t 0 1000)) as Hp.
  destruct (Utf8.encode (slice t 0 1000)) as [pos | pv]; rewrite Hp.
  { cbn [snd]. rewrite app_nil_r. apply emitted_app. }
  pose proof (encode_result (handler_data complete t tr)) as Hd.
  rewrite run_trace. unfold trace_at_run at 1 3 5.
  destruct (Utf8.encode (handler_data complete t tr)) as [pos | dv]; rewrite Hd.
  { cbn [fst snd]. rewrite <- !app_assoc. rewrite emitted_app.
    rewrite !app_nil_r. reflexivity. }
  destruct (Utf8.encode (csv_output (handler_data complete t tr))) as [pos | bytes];
    cbn [fst snd]; rewrite <- !app_assoc; rewrite emitted_app;
    rewrite ?app_nil_r; reflexivity.
Qed.

(** The result of the handler. *)
Lemma on_extract_result (t : str) (tr : trace) :
  let data := handler_data complete t tr in
  fst (on_extract complete t tr)
  = match Utf8.encode (slice t 0 1000) with
    | inl pos => inl (unicode_error pos)
    | inr _ =>
        match Utf8.encode data with
        | inl pos => inl (unicode_error pos)
        | inr _ => match Utf8.encode (csv_output data) with
                   | inl pos => inl (unicode_error pos)
                   | inr bytes => inr bytes
                   end
        end
    end.
Proof.
  cbv zeta. rewrite on_extract_run. cbv zeta.
  destruct (Utf8.encode (slice t 0 1000)); [reflexivity |].
  destruct (Utf8.encode (handler_data complete t tr)); [reflexivity |].
  destruct (Utf8.encode (csv_output (handler_data complete t tr))); reflexivity.
Qed.

(** The requests of the handler: those of the run on the capped text,
    unless the preview was refused. *)
Lemma on_extract_requests (t : str) (tr : trace) :
  filter is_call (emitted tr (snd (on_extract complete t tr)))
  = if has_surrogate (slice t 0 1000) then []
    else map (request_event (len (chunks (cap_text t))))
             (enumerate 1 (chunks (cap_text t))).
Proof.
  pose proof (on_extract_emitted t tr) as He. cbv zeta in He. rewrite He. clear He.
  rewrite !filter_app.
  assert (Hg : filter is_call (guard_events t) = [])
    by (unfold guard_events; destruct (len t >? MAX_TEXT); reflexivity).
  rewrite Hg. cbn [app filter is_call text_extracted].
  destruct (has_surrogate (slice t 0 1000)); [reflexivity |].
  cbn [app filter is_call]. rewrite filter_app, run_events_requests.
  unfold entities_extracted. cbn [filter is_call]. rewrite filter_app.
  destruct (has_surrogate (handler_data complete t tr));
    destruct (fst (on_extract complete t tr));
    cbn [app filter is_call]; rewrite app_nil_r; reflexivity.
Qed.

Lemma calls_emitted (tr new : trace) :
  calls (tr ++ new) = (calls tr + List.length (filter is_call new))%nat.
Proof. rewrite calls_app. reflexivity. Qed.

(** The handler only extends the trace. *)
Lemma on_extract_extends (t : str) (tr : trace) :
  snd (on_extract complete t tr) = tr ++ emitted tr (snd (on_extract complete t tr)).
Proof.
  rewrite on_extract_run. cbv zeta. rewrite run_trace. unfold trace_at_run.
  destruct (Utf8.encode (slice t 0 1000)); [cbn [snd]; rewrite emitted_app; reflexivity |].
  destruct (Utf8.encode (handler_data complete t tr));
    [cbn [snd]; rewrite <- !app_assoc; rewrite emitted_app; reflexivity |].
  destruct (Utf8.encode (csv_output (handler_data complete t tr)));
    cbn [snd]; rewrite <- !app_assoc; rewrite emitted_app; reflexivity.
Qed.

Lemma on_extract_calls (t : str) (tr : trace) :
  calls (snd (on_extract complete t tr))
  = (calls tr + if has_surrogate (slice t 0 1000) then 0
                else List.length (chunks (cap_text t)))%nat.
Proof.
  rewrite on_extract_extends, calls_emitted, on_extract_requests.
  destruct (has_surrogate (slice t 0 1000)); [reflexivity |].
  rewrite length_map, enumerate_length. reflexivity.
Qed.

Lemma capped_chunks_bound (t : str) : len (chunks (cap_text t)) <= 50.
Proof.
  rewrite chunks_count, cap_text_len.
  pose proof (len_nonneg t) as Hn.
  unfold CHUNK_SIZE, MAX_TEXT.
  assert (H : (Z.min (len t) 1000000 + 20000 - 1) / 20000 < 51)
    by (apply Z.div_lt_upper_bound; lia).
  lia.
Qed.

Lemma blank_join (ts : list str) :
  forallb blank ts = true -> blank (join [LF] ts) = true.
Proof.
  induction ts as [| t r IH]; intros H; [reflexivity |].
  cbn [forallb] in H. apply andb_true_iff in H. destruct H as [Ht Hr].
  destruct r as [| u r']; [exact Ht |].
  rewrite join_cons by discriminate. rewrite blank_app, Ht.
  cbn [blank forallb andb]. apply IH, Hr.
Qed.

End HandlerFacts.

(** ** The size guard in the handler *)

(** C9.  A text longer than 1,000,000 characters is cut to its first
    1,000,000 characters before chunking and the rest is dropped: the
    guard returns that prefix after the warning, the handler then runs
    exactly as it runs on the prefix alone, and the requests it makes
    are those of the 50 chunks of the prefix, one each and in order
    (none when the preview is refused for a surrogate among its first
    1,000 characters). *)
Theorem oversized_text_is_truncated (complete : service) (t : str) (tr : trace) :
  len t > 1000000 ->
  cap_text t = firstn (Z.to_nat 1000000) t
  /\ len (cap_text t) = 1000000
  /\ t = cap_text t ++ skipn (Z.to_nat 1000000) t
  /\ concat (chunks (cap_text t)) = firstn (Z.to_nat 1000000) t
  /\ on_extract complete t tr
     = on_extract complete (cap_text t) (tr ++ [size_warning])
  /\ size_guard t tr = (inr (firstn (Z.to_nat 1000000) t), tr ++ [size_warning])
  /\ len (chunks (firstn (Z.to_nat 1000000) t)) = 50
  /\ filter is_call (emitted tr (snd (on_extract complete t tr)))
     = (if has_surrogate (firstn (Z.to_nat 1000) t) then []
        else map (request_event 50)
                 (enumerate 1 (chunks (firstn (Z.to_nat 1000000) t))))
  /\ exists rest,
       emitted tr (snd (on_extract complete t tr))
       = size_warning :: text_extracted :: rest.
Proof.
  intros H.
  assert (Hcap : cap_text t = firstn (Z.to_nat MAX_TEXT) t)
    by (apply cap_text_long; exact H).
  assert (Hlen : len (cap_text t) = MAX_TEXT)
    by (rewrite cap_text_len; unfold MAX_TEXT; lia).
  assert (Hgt : (len t >? MAX_TEXT) = true)
    by (apply Z.gtb_lt; unfold MAX_TEXT; lia).
  assert (Hguard : guard_events t = [size_warning])
    by (unfold guard_events; rewrite Hgt; reflexivity).
  assert (Hcount : len (chunks (cap_text t)) = 50).
  { rewrite chunks_count, Hlen. reflexivity. }
  split; [exact Hcap |]. split; [exact Hlen |].
  split; [rewrite Hcap; symmetry; apply firstn_skipn |].
  split; [rewrite chunks_concat; exact Hcap |].
  split.
  { unfold on_extract.
    rewrite (@bind_value _ _ _ _ _ _ _ (size_guard_spec t tr)).
    rewrite (@bind_value _ _ _ _ _ _ _ (size_guard_spec (cap_text t) (tr ++ [size_warning]))).
    rewrite Hguard. unfold guard_events.
    replace (len (cap_text t) >? MAX_TEXT) with false by (rewrite Hlen; reflexivity).
    rewrite app_nil_r.
    rewrite (cap_text_short (cap_text t)) by (rewrite Hlen; lia).
    reflexivity. }
  split; [rewrite size_guard_spec, Hguard, Hcap; reflexivity |].
  change (Z.to_nat 1000000) with (Z.to_nat MAX_TEXT). rewrite <- Hcap.
  split; [exact Hcount |].
  split.
  { rewrite on_extract_requests, Hcount, slice_prefix by lia. reflexivity. }
  pose proof (on_extract_emitted complete t tr) as He. cbv zeta in He.
  rewrite He, Hguard. eexists. reflexivity.
Qed.

(** C9 at a text of 1,000,001 characters. *)
Lemma oversized_text_is_truncated_witness :
  len (cap_text (repeat 97 (Z.to_nat 1000001))) = 1000000.
Proof.
  assert (H : len (repeat 97 (Z.to_nat 1000001)) > 1000000)
    by (rewrite len_repeat; lia).
  exact (proj1 (proj2 (@oversized_text_is_truncated
                         (fun _ _ _ => inr {| choices := [] |}) _ [] H))).
Defined.

(** ** The handler from the upload on *)

(** X14.  A file that the reader refuses, or a page whose text extraction
    raises, ends the handler with that exception: the spinner of the text
    extraction is shown and taken away, nothing else is shown, no request
    is made, and the pages read before are lost. *)
Theorem unreadable_pdf_aborts_the_handler
    (complete : service) (e : exn) (pre post : list pdf_page) (tr : trace) :
  readable pre = true ->
  on_click complete (inl e) tr
  = (inl e, tr ++ [StSpinner extracting_text; StSpinnerDone])
  /\ on_click complete (inr (pre ++ inl e :: post)) tr
     = (inl e, tr ++ [StSpinner extracting_text; StSpinnerDone])
  /\ calls (tr ++ [StSpinner extracting_text; StSpinnerDone]) = calls tr.
Proof.
  intros H. split; [| split].
  - cbv beta iota delta [on_click bind with_spinner extract_pdf_text pdf_reader raise].
    rewrite <- app_assoc. reflexivity.
  - assert (Hx : extract_pdf_text (inr (pre ++ inl e :: post))
                                  (tr ++ [StSpinner extracting_text])
                 = (inl e, tr ++ [StSpinner extracting_text])).
    { unfold extract_pdf_text, pdf_reader. rewrite bind_ret.
      apply bind_raises, for_pages_raises, H. }
    unfold on_click, with_spinner, bind. rewrite Hx.
    rewrite <- app_assoc. reflexivity.
  - rewrite calls_app. cbn. lia.
Qed.

Lemma unreadable_pdf_aborts_the_handler_witness :
  on_click (scripted [answer "x"])
           (inr ([inr (Some (lit "page one"))] ++ inl index_error :: [])) []
  = (inl index_error, [] ++ [StSpinner extracting_text; StSpinnerDone]).
Proof.
  apply (@unreadable_pdf_aborts_the_handler (scripted [answer "x"]) index_error
           [inr (Some (lit "page one"))] [] []).
  reflexivity.
Defined.

(** X15.  The handler makes one request per chunk of the capped text, or
    none at all when the preview is refused for a surrogate among the
    first 1,000 characters; in no case more than 50. *)
Theorem handler_makes_at_most_50_requests (complete : service) (t : str) (tr : trace) :
  calls (snd (on_extract complete t tr))
  = (calls tr + if has_surrogate (firstn (Z.to_nat 1000) t) then 0
                else List.length (chunks (cap_text t)))%nat
  /\ len (chunks (cap_text t)) <= 50
  /\ (calls (snd (on_extract complete t tr)) <= calls tr + 50)%nat.
Proof.
  pose proof (on_extract_calls complete t tr) as Hc.
  rewrite slice_prefix in Hc by lia.
  pose proof (capped_chunks_bound t) as Hb.
  split; [exact Hc |]. split; [exact Hb |].
  rewrite Hc. unfold len in Hb.
  destruct (has_surrogate (firstn (Z.to_nat 1000) t)); lia.
Qed.

(** X16.  The handler offers a download exactly when neither the preview
    nor the extracted data holds a surrogate, and then it offers the
    bytes it returns, the UTF-8 encoding of the table text.  Otherwise it
    raises UnicodeEncodeError from the text area that was refused and
    offers nothing: at the preview no request has been made, at the
    extracted data all of them have. *)
Theorem download_is_offered_only_when_encoded
    (complete : service) (t : str) (tr : trace) :
  let r := on_extract complete t tr in
  let preview := firstn (Z.to_nat 1000) t in
  let data := handler_data complete t tr in
  match fst r with
  | inr bytes =>
      has_surrogate preview = false
      /\ has_surrogate data = false
      /\ Utf8.encode (csv_output data) = inr bytes
      /\ filter is_download (emitted tr (snd r)) = [StDownloadButton bytes]
  | inl e =>
      filter is_download (emitted tr (snd r)) = []
      /\ exists pos,
           e = unicode_error pos
           /\ (Utf8.encode preview = inl pos /\ calls (snd r) = calls tr
               \/ has_surrogate preview = false
                  /\ Utf8.encode data = inl pos
                  /\ calls (snd r)
                     = (calls tr + List.length (chunks (cap_text t)))%nat)
  end.
Proof.
  cbv zeta.
  pose proof (on_extract_emitted complete t tr) as He.
  pose proof (on_extract_calls complete t tr) as Hc.
  pose proof (on_extract_result complete t tr) as Hr.
  cbv zeta in He, Hr. rewrite He, Hc. clear He Hc.
  rewrite slice_prefix in * by lia.
  set (preview := firstn (Z.to_nat 1000) t) in *.
  set (data := handler_data complete t tr) in *.
  assert (Hg : filter is_download (guard_events t) = [])
    by (unfold guard_events; destruct (len t >? MAX_TEXT); reflexivity).
  rewrite !filter_app, Hg. cbn [app filter is_download text_extracted].
  pose proof (encode_result preview) as Hp.
  destruct (Utf8.encode preview) as [pos | pv].
  { rewrite Hr, Hp. split; [reflexivity |].
    exists pos. split; [reflexivity |]. left. split; [reflexivity | lia]. }
  rewrite Hp. cbn [app filter is_download]. rewrite !filter_app.
  rewrite run_events_quiet by reflexivity.
  unfold entities_extracted. cbn [app filter is_download].
  pose proof (encode_result data) as Hd.
  destruct (Utf8.encode data) as [pos | dv].
  { rewrite Hr, Hd. split; [reflexivity |].
    exists pos. split; [reflexivity |]. right. repeat split; reflexivity. }
  rewrite Hd. cbn [app filter is_download].
  pose proof (encode_result (csv_output data)) as Ho.
  rewrite (csv_output_no_surrogate data Hd) in Ho.
  destruct (Utf8.encode (csv_output data)) as [pos | bytes]; [discriminate Ho |].
  rewrite Hr. repeat split; reflexivity.
Qed.

(** X17.  The size warning is shown exactly when the text is longer than
    1,000,000 characters, and the success message follows.  The preview
    is shown next when its text, the first 1,000 characters of the text
    as extracted, holds no surrogate, and the spinner of the requests
    follows it; otherwise nothing more is shown and the handler raises
    UnicodeEncodeError. *)
Theorem warning_and_preview (complete : service) (t : str) (tr : trace) :
  let r := on_extract complete t tr in
  let new := emitted tr (snd r) in
  let preview := firstn (Z.to_nat 1000) t in
  let warning := if len t >? 1000000 then [size_warning] else [] in
  filter is_warning new = warning
  /\ slice t 0 1000 = preview
  /\ if has_surrogate preview
     then new = warning ++ [text_extracted]
          /\ exists pos, Utf8.encode preview = inl pos
                         /\ fst r = inl (unicode_error pos)
     else exists rest,
          new = warning ++ [text_extracted; StTextArea preview_label preview;
                            StSpinner sending_text] ++ rest.
Proof.
  cbv zeta.
  pose proof (on_extract_emitted complete t tr) as He.
  pose proof (on_extract_result complete t tr) as Hr.
  cbv zeta in He, Hr. rewrite He. clear He.
  rewrite slice_prefix in * by lia.
  set (preview := firstn (Z.to_nat 1000) t) in *.
  change (len t >? 1000000) with (len t >? MAX_TEXT). fold (guard_events t).
  assert (Hg : filter is_warning (guard_events t) = guard_events t)
    by (unfold guard_events; destruct (len t >? MAX_TEXT); reflexivity).
  split; [| split; [reflexivity |]].
  - rewrite !filter_app, Hg. cbn [app filter is_warning text_extracted].
    destruct (has_surrogate preview); [apply app_nil_r |].
    cbn [app filter is_warning]. rewrite !filter_app.
    rewrite run_events_quiet by reflexivity.
    unfold entities_extracted. cbn [app filter is_warning].
    destruct (has_surrogate (handler_data complete t tr));
      destruct (fst (on_extract complete t tr));
      cbn [app filter is_warning]; apply app_nil_r.
  - pose proof (encode_result preview) as Hp.
    destruct (Utf8.encode preview) as [pos | pv]; rewrite Hp.
    + split; [rewrite app_nil_r; reflexivity |].
      exists pos. split; [reflexivity | exact Hr].
    + eexists. reflexivity.
Qed.

(** X18.  A PDF whose pages give no text, or white space only, leads to
    no request at all, and the handler returns the table of one empty
    quoted field. *)
Theorem pdf_without_text_makes_no_request
    (complete : service) (pages : list pdf_page) (tr : trace) :
  readable pages = true ->
  forallb blank (page_texts pages) = true ->
  let r := on_click complete (inr pages) tr in
  fst r = inr [0x22; 0x22; 0x0D; 0x0A] /\ calls (snd r) = calls tr.
Proof.
  intros Hread Hblank r. subst r.
  assert (Heq : on_click complete (inr pages) tr
                = on_extract complete [] (tr ++ [StSpinner extracting_text; StSpinnerDone])).
  { unfold on_click.
    assert (Hx : with_spinner extracting_text (extract_pdf_text (inr pages)) tr
                 = (inr [], tr ++ [StSpinner extracting_text; StSpinnerDone])).
    { unfold with_spinner, extract_pdf_text, pdf_reader.
      rewrite bind_ret.
      rewrite (@bind_value _ _ _ _ _ _ _
                 (for_pages_readable pages [] (tr ++ [StSpinner extracting_text]) Hread)).
      unfold ret. cbn [app]. rewrite concat_lines.
      rewrite strip_blank by (apply blank_join; exact Hblank).
      rewrite <- app_assoc. reflexivity. }
    rewrite (@bind_value _ _ _ _ _ _ _ Hx). reflexivity. }
  rewrite Heq. split.
  - rewrite on_extract_result. reflexivity.
  - rewrite on_extract_calls, calls_app. cbn. lia.
Qed.

Lemma pdf_without_text_makes_no_request_witness :
  fst (on_click (scripted [answer "never asked"])
                (inr [inr None; inr (Some (lit "  ")); inr (Some [])]) [])
  = inr [0x22; 0x22; 0x0D; 0x0A].
Proof.
  apply (@pdf_without_text_makes_no_request (scripted [answer "never asked"])
           [inr None; inr (Some (lit "  ")); inr (Some [])] []);
    reflexivity.
Defined.

(** ** The handler on small texts *)

(** One chunk, one answer: the preview, the run under its spinner, the
    data and the download. *)
Example handler_on_a_short_text :
  on_extract (scripted [answer "A,B,C,D"]) (lit "Asha holds a PAN.") []
  = (inr (lit "A,B,C,D" ++ [CR; LF]),
     [text_extracted;
      StTextArea preview_label (lit "Asha holds a PAN.");
      StSpinner sending_text;
      StProgress (Int 0) starting_text;
      ProgressUpdate (Float 1 1) (processing_text 1 1);
      ChatComplete MODEL_NAME (prompt_for 1 1 (lit "Asha holds a PAN."));
      ProgressUpdate (Float 1 1) completed_text;
      StSpinnerDone;
      entities_extracted;
      StTextArea data_label (lit "A,B,C,D");
      StDownloadButton (lit "A,B,C,D" ++ [CR; LF])]).
Proof. vm_compute. reflexivity. Qed.

(** A surrogate in the text stops the handler at the preview: no request
    is made. *)
Example handler_on_a_surrogate_in_the_text :
  on_extract (scripted [answer "A,B,C,D"]) (lit "ab" ++ [0xD800]) []
  = (inl (unicode_error 2), [text_extracted]).
Proof. vm_compute. reflexivity. Qed.

(** A surrogate in an answer stops the handler at the extracted data,
    after the request: nothing is offered for download. *)
Example handler_on_a_surrogate_in_the_answer :
  let svc : service :=
    fun _ _ _ => inr {| choices := [{| content := Some (lit "A," ++ [0xDC00]) |}] |} in
  on_extract svc (lit "text") []
  = (inl (unicode_error 2),
     [text_extracted;
      StTextArea preview_label (lit "text");
      StSpinner sending_text;
      StProgress (Int 0) starting_text;
      ProgressUpdate (Float 1 1) (processing_text 1 1);
      ChatComplete MODEL_NAME (prompt_for 1 1 (lit "text"));
      ProgressUpdate (Float 1 1) completed_text;
      StSpinnerDone;
      entities_extracted]).
Proof. vm_compute. reflexivity. Qed.
